(** * Text-document geometry and the Atom document adapter

    A shallow embedding of the position and range geometry that the
    adapter imports as [./vscode-shim] (classes [Position], [Range],
    [Selection], [TextEdit] and [WorkspaceEdit], in the sources under
    [client/src/protocolCompletionItem.ts]) and of the document adapter
    [AtomTextDocument] of [client/src/utils/atom-shim.ts].

    Conventions of the embedding:
    - a JavaScript [number] that holds a line, a character, an offset or a
      version is an integer of [Z]; fractional values, NaN and the loss of
      precision above 2^53 are outside the model;
    - a JavaScript string is a [string], and [String.length] stands for
      its [length] property (one character of the model per UTF-16 unit);
    - a [Position] is an immutable object: it is modelled by its two
      fields together with the identity [oid] it received when it was
      created, so that [===] on two Positions is equality of identities;
    - a [TextEdit[]] array is a mutable object that several holders share:
      arrays live in a store and are passed by address;
    - [throw] is the result [Throw]; code that creates objects threads the
      store through the monad [M]. *)

From Stdlib Require Import ZArith String Ascii List Bool Lia.
From stdpp Require Import base option list gmap strings.

Set Default Proof Using "Type".

(** ** Results, errors and the allocation monad *)

Module Js.

Inductive Error : Type :=
| IllegalArgument (name : string)  (* illegalArgument(name) *)
| InvalidArguments                 (* new Error('Invalid arguments') *)
| InvalidArgument                  (* new Error('Invalid argument') *)
| TypeError                        (* a property read on undefined *)
| HostError (message : string).    (* an error thrown by the host *)

Inductive Res (A : Type) : Type :=
| Ok (a : A)
| Throw (e : Error).

Arguments Ok {A} a.
Arguments Throw {A} e.

(** A computation over a store [S]: it returns a value and the new store,
    or throws. *)
Definition M (S A : Type) : Type := S -> Res (A * S).

Definition ret {S A : Type} (a : A) : M S A := fun s => Ok (a, s).

Definition bind {S A B : Type} (c : M S A) (k : A -> M S B) : M S B :=
  fun s => match c s with
           | Ok (a, s') => k a s'
           | Throw e => Throw e
           end.

Definition throw {S A : Type} (e : Error) : M S A := fun _ => Throw e.

Definition lift {S A : Type} (r : Res A) : M S A :=
  fun s => match r with
           | Ok a => Ok (a, s)
           | Throw e => Throw e
           end.

(** [l[i]] for an array [l] and a number [i]: [None] is [undefined]. *)
Definition item {A : Type} (l : list A) (i : Z) : option A :=
  if (i <? 0)%Z then None else l !! Z.to_nat i.

(** The [length] property of a string and of an array, as numbers. *)
Definition strlen (s : string) : Z := Z.of_nat (String.length s).
Definition arrlen {A : Type} (l : list A) : Z := Z.of_nat (length l).

End Js.

Export Js.

Declare Scope js_scope.
Delimit Scope js_scope with js.
Notation "x <- c ;; k" := (Js.bind c (fun x => k))
  (at level 100, c at next level, right associativity) : js_scope.

(** The store of the geometry code: the identity of the next object. *)
Abbreviation Alloc := nat.

(** ** vscode-shim.ts: Disposable

    The class keeps one field, [_callOnDispose], and calls functions that
    belong to its caller. What these functions do is not its business: a
    call that leaves the class is recorded, with the identity of what is
    called, and returns; a call that throws is outside the model. *)

Module Disposable.

(** An element of the arguments of [from]: [null] or [undefined], an
    object whose [dispose] is not a function, or an object with a function
    [dispose]. *)
Inductive Argument : Type :=
| Null
| NoDispose (id : nat)
| WithDispose (id : nat).

(** A value of [_callOnDispose]: a value that is not a function, a
    function of the caller, or the function that [from] builds, together
    with the variable [disposables] that it closes over. *)
Inductive Callback : Type :=
| NotAFunction
| CallerFunction (id : nat)
| FromFunction (disposables : option (list Argument)).

(** The calls that leave the class. *)
Inductive Call : Type :=
| CallFunction (id : nat)
| CallDispose (id : nat).

Record t : Type := mk { _callOnDispose : Callback }.

(** [constructor(callOnDispose)] *)
Definition new (callOnDispose : Callback) : t := mk callOnDispose.

(** The body of the loop of the function of [from]. *)
Definition disposeOne (disposable : Argument) : list Call :=
  match disposable with
  | WithDispose id => [CallDispose id]
  | Null | NoDispose _ => []
  end.

(** The function of [from]: the new value of [disposables] and the calls
    it makes. *)
Definition fromFunction (disposables : option (list Argument))
  : option (list Argument) * list Call :=
  match disposables with
  | Some ds => (None, flat_map disposeOne ds)
  | None => (None, [])
  end.

(** [static from(...disposables)] *)
Definition from (disposables : list Argument) : t :=
  new (FromFunction (Some disposables)).

(** [dispose()]: the object after the call and the calls it makes. *)
Definition dispose (this : t) : t * list Call :=
  match _callOnDispose this with
  | NotAFunction => (this, [])
  | CallerFunction id => (mk NotAFunction, [CallFunction id])
  | FromFunction disposables => (mk NotAFunction, snd (fromFunction disposables))
  end.

End Disposable.

(** ** vscode-shim.ts: Position *)

Module Position.

Record t : Type := mk { oid : nat; _line : Z; _character : Z }.

Definition line (this : t) : Z := _line this.
Definition character (this : t) : Z := _character this.

(** [p === q] on two Position objects. *)
Definition same (p q : t) : bool := Nat.eqb (oid p) (oid q).

Local Open Scope Z_scope.
Local Open Scope js_scope.

(** [constructor(line, character)] *)
Definition new (line character : Z) : M Alloc t :=
  fun h =>
    if line <? 0 then Throw (IllegalArgument "line must be positive")
    else if character <? 0 then Throw (IllegalArgument "character must be positive")
    else Ok (mk h line character, S h).

Definition isBefore (this other : t) : bool :=
  if _line this <? _line other then true
  else if _line other <? _line this then false
  else _character this <? _character other.

Definition isBeforeOrEqual (this other : t) : bool :=
  if _line this <? _line other then true
  else if _line other <? _line this then false
  else _character this <=? _character other.

Definition isAfter (this other : t) : bool := negb (isBeforeOrEqual this other).

Definition isAfterOrEqual (this other : t) : bool := negb (isBefore this other).

Definition isEqual (this other : t) : bool :=
  (_line this =? _line other) && (_character this =? _character other).

Definition compareTo (this other : t) : Z :=
  if _line this <? _line other then -1
  else if _line this >? line other then 1
  else if _character this <? _character other then -1
  else if _character this >? _character other then 1
  else 0.

(** [static Min(...positions)]: [pop] takes the last argument as the first
    candidate, the loop then runs over the remaining ones in order. With
    no argument [pop] gives [undefined] ([None]). *)
Definition Min (positions : list t) : option t :=
  match last positions with
  | None => None
  | Some result =>
      Some (fold_left (fun result p => if isBefore p result then p else result)
                      (removelast positions) result)
  end.

Definition Max (positions : list t) : option t :=
  match last positions with
  | None => None
  | Some result =>
      Some (fold_left (fun result p => if isAfter p result then p else result)
                      (removelast positions) result)
  end.

(** [translate(lineDelta = 0, characterDelta = 0)] *)
Definition translate (this : t) (lineDelta characterDelta : option Z) : M Alloc t :=
  let lineDelta := default 0 lineDelta in
  let characterDelta := default 0 characterDelta in
  if (lineDelta =? 0) && (characterDelta =? 0) then ret this
  else new (line this + lineDelta) (character this + characterDelta).

(** [with(line = this.line, character = this.character)] *)
Definition with_ (this : t) (line' character' : option Z) : M Alloc t :=
  let line' := default (line this) line' in
  let character' := default (character this) character' in
  if (line' =? line this) && (character' =? character this) then ret this
  else new line' character'.

End Position.

(** An argument of a constructor that is overloaded on the run-time type
    of its arguments. *)
Inductive Value : Type :=
| VUndefined
| VNumber (n : Z)
| VPosition (p : Position.t).

(** ** vscode-shim.ts: Range *)

Module Range.

Record t : Type := mk { _start : Position.t; _end : Position.t }.

Definition start (this : t) : Position.t := _start this.
Definition end_ (this : t) : Position.t := _end this.

Local Open Scope js_scope.

(** The last statement of the constructor: the two endpoints are stored in
    order. *)
Definition ordered (start end_ : Position.t) : t :=
  if Position.isBefore start end_ then mk start end_ else mk end_ start.

(** [constructor(startLineOrStart, startColumnOrEnd, endLine?, endColumn?)] *)
Definition new (startLineOrStart startColumnOrEnd endLine endColumn : Value) : M Alloc t :=
  match startLineOrStart, startColumnOrEnd, endLine, endColumn with
  | VNumber sl, VNumber sc, VNumber el, VNumber ec =>
      start <- Position.new sl sc ;;
      end_ <- Position.new el ec ;;
      ret (ordered start end_)
  | VPosition start, VPosition end_, _, _ => ret (ordered start end_)
  | _, _, _, _ => throw InvalidArguments
  end.

(** [contains(positionOrRange)], the branch of a Position *)
Definition containsPosition (this : t) (p : Position.t) : bool :=
  if Position.isBefore p (_start this) then false
  else if Position.isBefore (_end this) p then false
  else true.

(** [contains(positionOrRange)] *)
Definition contains (this : t) (positionOrRange : Position.t + t) : bool :=
  match positionOrRange with
  | inr r => containsPosition this (_start r) && containsPosition this (_end r)
  | inl p => containsPosition this p
  end.

Definition isEqual (this other : t) : bool :=
  Position.isEqual (_start this) (_start other)
  && Position.isEqual (_end this) (_end other).

(** [intersection(other)]: [None] is the bare [return;]. A call of
    [new Range(start, end)] on two Positions is [ordered]. *)
Definition intersection (this other : t) : Res (option t) :=
  match Position.Max [start other; _start this],
        Position.Min [end_ other; _end this] with
  | Some start, Some end_ =>
      if Position.isAfter start end_ then Ok None
      else Ok (Some (ordered start end_))
  | _, _ => Throw TypeError
  end.

Definition union (this other : t) : Res t :=
  if contains this (inr other) then Ok this
  else if contains other (inr this) then Ok other
  else
    match Position.Min [start other; _start this],
          Position.Max [end_ other; end_ this] with
    | Some start, Some end_ => Ok (ordered start end_)
    | _, _ => Throw TypeError
    end.

Definition isEmpty (this : t) : bool := Position.isEqual (_start this) (_end this).

Definition isSingleLine (this : t) : bool :=
  (Position.line (_start this) =? Position.line (_end this))%Z.

(** [with(start = this.start, end = this.end)] *)
Definition with_ (this : t) (start' end' : option Position.t) : t :=
  let start' := default (start this) start' in
  let end' := default (end_ this) end' in
  if Position.isEqual start' (_start this) && Position.isEqual end' (end_ this)
  then this
  else ordered start' end'.

End Range.

(** ** vscode-shim.ts: Selection *)

Module Selection.

(** A Selection is a Range (the inherited [_start] and [_end]) with the
    two fields [_anchor] and [_active]. *)
Record t : Type := mk { range : Range.t; _anchor : Position.t; _active : Position.t }.

Definition anchor (this : t) : Position.t := _anchor this.
Definition active (this : t) : Position.t := _active this.
Definition start (this : t) : Position.t := Range.start (range this).
Definition end_ (this : t) : Position.t := Range.end_ (range this).

Local Open Scope js_scope.

(** [constructor(anchorLineOrAnchor, anchorColumnOrActive, activeLine?, activeColumn?)] *)
Definition new (anchorLineOrAnchor anchorColumnOrActive activeLine activeColumn : Value)
  : M Alloc t :=
  endpoints <-
    match anchorLineOrAnchor, anchorColumnOrActive, activeLine, activeColumn with
    | VNumber al, VNumber ac, VNumber vl, VNumber vc =>
        anchor <- Position.new al ac ;;
        active <- Position.new vl vc ;;
        ret (anchor, active)
    | VPosition anchor, VPosition active, _, _ => ret (anchor, active)
    | _, _, _, _ => throw InvalidArguments
    end ;;
  let anchor := fst endpoints in
  let active := snd endpoints in
  super <- Range.new (VPosition anchor) (VPosition active) VUndefined VUndefined ;;
  ret (mk super anchor active).

(** [get isReversed()]: [this._anchor === this._end] *)
Definition isReversed (this : t) : bool :=
  Position.same (_anchor this) (Range._end (range this)).

End Selection.

(** ** vscode-shim.ts: TextEdit *)

Module TextEdit.

Record t : Type := mk { _range : Range.t; _newText : string }.

(** [constructor(range, newText)]: the setter of [range] rejects a value
    that is not truthy ([None] is such a value, a Range never is). *)
Definition new (range : option Range.t) (newText : string) : Res t :=
  match range with
  | None => Throw (IllegalArgument "range")
  | Some range => Ok (mk range newText)
  end.

Definition range (this : t) : Range.t := _range this.

(** [get newText()]: [this._newText || ''] *)
Definition newText (this : t) : string :=
  if String.eqb (_newText this) EmptyString then EmptyString else _newText this.

Definition replace (range : Range.t) (newText : string) : Res t :=
  new (Some range) newText.

Definition insert (position : Position.t) (newText : string) : Res t :=
  replace (Range.ordered position position) newText.

Definition delete (range : Range.t) : Res t := replace range EmptyString.

End TextEdit.

(** ** The resource identifier *)

Module Uri.

(** Modelled from the spec: the class [URI] of [./uri], which [Uri]
    extends without adding anything, is not part of these sources. The
    spec asks of it a canonical string form, [toString()]; an identifier
    object is modelled by its identity and that string. *)
Record t : Type := mk { oid : nat; canonical : string }.

Definition toString (this : t) : string := canonical this.

End Uri.

(** ** vscode-shim.ts: WorkspaceEdit *)

Module WorkspaceEdit.

(** A [TextEdit[]] array is a mutable object that the caller, the entry
    of [_values] and the result of [get] share: arrays live in a store
    and are passed by address. *)
Abbreviation aref := nat.

Record t : Type := mk {
  _values : list (Uri.t * aref);     (* [Uri, TextEdit[]][] *)
  _index : gmap string nat;          (* { [uri: string]: number } *)
}.

Record Store : Type := mkStore {
  arrays : list (list TextEdit.t);   (* the arrays created so far *)
  this : t;
}.

(** What [get] returns: the boolean [false] or an array. *)
Inductive GetResult : Type :=
| GFalse
| GArray (a : aref).

(** [if (v)] on a result of [get]: an array is truthy, even when empty. *)
Definition truthy (v : GetResult) : bool :=
  match v with GFalse => false | GArray _ => true end.

Local Open Scope js_scope.

(** [new WorkspaceEdit()] *)
Definition new : t := mk [] ∅.

(** The array literal [[e1, ..., en]]: a new array. *)
Definition newArray (elements : list TextEdit.t) : M Store aref :=
  fun s => Ok (length (arrays s), mkStore (arrays s ++ [elements]) (this s)).

(** [array.push(edit)]. An address that no array has can not occur in
    the program; the model stops on it. *)
Definition push (array : aref) (edit : TextEdit.t) : M Store unit :=
  fun s =>
    match arrays s !! array with
    | Some elements =>
        Ok (tt, mkStore (<[array := elements ++ [edit]]> (arrays s)) (this s))
    | None => Throw TypeError
    end.

Definition has (uri : Uri.t) : M Store bool :=
  fun s => Ok (bool_decide (is_Some (_index (this s) !! Uri.toString uri)), s).

Definition set (uri : Uri.t) (edits : aref) : M Store unit :=
  fun s =>
    let idx := _index (this s) !! Uri.toString uri in
    match idx with
    | None =>
        let values := _values (this s) ++ [(uri, edits)] in
        let newLen := length values in
        Ok (tt, mkStore (arrays s)
                  (mk values (<[Uri.toString uri := newLen - 1]> (_index (this s)))))
    | Some idx =>
        match _values (this s) !! idx with
        | Some entry =>
            Ok (tt, mkStore (arrays s)
                      (mk (<[idx := (fst entry, edits)]> (_values (this s)))
                          (_index (this s))))
        | None => Throw TypeError
        end
    end.

Definition get (uri : Uri.t) : M Store GetResult :=
  fun s =>
    let idx := _index (this s) !! Uri.toString uri in
    match idx with
    | None => Ok (GFalse, s)
    | Some idx =>
        match _values (this s) !! idx with
        | Some entry => Ok (GArray (snd entry), s)
        | None => Throw TypeError
        end
    end.

Definition replace (uri : Uri.t) (range : Range.t) (newText : string) : M Store unit :=
  edit <- lift (TextEdit.new (Some range) newText) ;;
  array <- get uri ;;
  match array with
  | GArray array => push array edit
  | GFalse => fresh <- newArray [edit] ;; set uri fresh
  end.

Definition insert (resource : Uri.t) (position : Position.t) (newText : string)
  : M Store unit :=
  replace resource (Range.ordered position position) newText.

Definition delete (resource : Uri.t) (range : Range.t) : M Store unit :=
  replace resource range EmptyString.

Definition entries (s : Store) : list (Uri.t * aref) := _values (this s).

Definition size (s : Store) : nat := length (_values (this s)).

(** *** Client programs

    The properties of a WorkspaceEdit are stated for every WorkspaceEdit
    that a program can build: a program is a sequence of calls on one
    WorkspaceEdit, started on [new WorkspaceEdit()]. *)
Inductive Call : Type :=
| CallArray (elements : list TextEdit.t)               (* the caller makes an array *)
| CallSet (uri : Uri.t) (edits : aref)
| CallReplace (uri : Uri.t) (range : Range.t) (newText : string)
| CallInsert (resource : Uri.t) (position : Position.t) (newText : string)
| CallDelete (resource : Uri.t) (range : Range.t).

(** The caller of [set] holds an array: the address it passes has one. *)
Definition call (c : Call) : M Store unit :=
  match c with
  | CallArray elements => _ <- newArray elements ;; ret tt
  | CallSet uri edits =>
      fun s => if decide (edits < length (arrays s))%nat then set uri edits s
               else Throw TypeError
  | CallReplace uri range newText => replace uri range newText
  | CallInsert resource position newText => insert resource position newText
  | CallDelete resource range => delete resource range
  end.

Fixpoint run (program : list Call) : M Store unit :=
  match program with
  | [] => ret tt
  | c :: program => _ <- call c ;; run program
  end.

Definition initial : Store := mkStore [] new.

(** The resource keys a program has stored under. *)
Definition key (c : Call) : option string :=
  match c with
  | CallArray _ => None
  | CallSet uri _ | CallReplace uri _ _ | CallInsert uri _ _ | CallDelete uri _ =>
      Some (Uri.toString uri)
  end.

Fixpoint touched (program : list Call) : gset string :=
  match program with
  | [] => ∅
  | c :: program =>
      match key c with
      | Some k => {[ k ]} ∪ touched program
      | None => touched program
      end
  end.

(** *** The state of a WorkspaceEdit

    The array a key is bound to, the keys of the entries in their order,
    and what the two structures [_values] and [_index] and the store of
    arrays satisfy together. *)
Definition binding (s : Store) (k : string) : option aref :=
  match _index (this s) !! k with
  | Some i => snd <$> _values (this s) !! i
  | None => None
  end.

Definition keys (s : Store) : list string :=
  map (fun entry => Uri.toString (fst entry)) (entries s).

Record wf (s : Store) : Prop := mkWf {
  wf_index : forall (k : string) (i : nat),
    _index (this s) !! k = Some i ->
    exists u a, _values (this s) !! i = Some (u, a) /\ Uri.toString u = k;
  wf_values : forall (i : nat) (u : Uri.t) (a : aref),
    _values (this s) !! i = Some (u, a) ->
    _index (this s) !! Uri.toString u = Some i;
  wf_arrays : forall (i : nat) (u : Uri.t) (a : aref),
    _values (this s) !! i = Some (u, a) -> a < length (arrays s);
  wf_size : length (_values (this s)) = base.size (_index (this s));
}.

End WorkspaceEdit.

(** ** The host: the text buffer and the editor *)

Module TextBuffer.

(** Modelled from the spec: the package [text-buffer] and the editor of
    the host are consumed by the adapter and are not part of these
    sources. The spec asks of the host buffer the line count, the text of
    each line without its terminator, and the conversion between a
    character index into the whole text and a (row, column) point, which
    clamps what lies outside of the buffer: a row before the first one to
    (0, 0), a row after the last one to the end of the last line, a column
    to the bounds of its line, a negative index to the start and an index
    after the end to the last position. A buffer has at least one row. *)
Record Point : Type := mkPoint { row : Z; column : Z }.

Record Row : Type := mkRow { text : string; ending : string }.

Record t : Type := mk { firstRow : Row; moreRows : list Row }.

Local Open Scope Z_scope.

Definition rows (b : t) : list Row := firstRow b :: moreRows b.

(** Modelled from the spec: [getLines()], the text of each line without
    its terminator. *)
Definition getLines (b : t) : list string := map text (rows b).

Definition getLineCount (b : t) : Z := arrlen (rows b).

Definition getLastRow (b : t) : Z := getLineCount b - 1.

Definition lineLengthForRow (b : t) (row : Z) : Z :=
  match item (getLines b) row with
  | Some l => strlen l
  | None => 0
  end.

Definition getEndPosition (b : t) : Point :=
  mkPoint (getLastRow b) (lineLengthForRow b (getLastRow b)).

(** Modelled from the spec: the clamping of a point that the host applies
    before it converts it. *)
Definition clipPosition (b : t) (p : Point) : Point :=
  if row p <? 0 then mkPoint 0 0
  else if row p >? getLastRow b then getEndPosition b
  else mkPoint (row p) (Z.min (Z.max (column p) 0) (lineLengthForRow b (row p))).

(** The number of characters, terminators included, of the first [n] rows. *)
Fixpoint charactersBefore (rs : list Row) (n : nat) : Z :=
  match n, rs with
  | S n, r :: rs => strlen (text r) + strlen (ending r) + charactersBefore rs n
  | _, _ => 0
  end.

(** Modelled from the spec: [characterIndexForPosition(point)], the
    offset of a point in the whole text; the point is clamped first, and a
    point that is not in the buffer has no offset. *)
Definition characterIndexForPosition (b : t) (p : Point) : Res Z :=
  let q := clipPosition b p in
  if (row q <? 0) || (row q >? getLastRow b)
     || (column q <? 0) || (column q >? lineLengthForRow b (row q))
  then Throw (HostError "Position is invalid")
  else Ok (charactersBefore (rows b) (Z.to_nat (row q)) + column q).

(** The point of an offset counted from the start of row [row], the
    rows from that one on being [rs]: an offset in the terminator of a row
    or after the last row is the end of the row. *)
Fixpoint locate (rs : list Row) (row offset : Z) : Point :=
  match rs with
  | [] => mkPoint row offset
  | r :: rs' =>
      match rs' with
      | [] => mkPoint row (Z.min offset (strlen (text r)))
      | _ :: _ =>
          if offset <? strlen (text r) + strlen (ending r)
          then mkPoint row (Z.min offset (strlen (text r)))
          else locate rs' (row + 1) (offset - (strlen (text r) + strlen (ending r)))
      end
  end.

(** Modelled from the spec: [positionForCharacterIndex(offset)], the
    inverse conversion; a negative offset is the start of the buffer and
    an offset after the end is the last position. *)
Definition positionForCharacterIndex (b : t) (offset : Z) : Point :=
  locate (rows b) 0 (Z.max 0 offset).

(** The rows of a text: a row ends at a line feed, at a carriage return
    or at the two in a row. *)
Definition LF : ascii := "010"%char.
Definition CR : ascii := "013"%char.

Fixpoint split (s : string) : Row * list Row :=
  match s with
  | EmptyString => (mkRow EmptyString EmptyString, [])
  | String c s' =>
      if Ascii.eqb c LF then
        (mkRow EmptyString (String LF EmptyString), let rs := split s' in fst rs :: snd rs)
      else if Ascii.eqb c CR then
        match s' with
        | String c' s'' =>
            if Ascii.eqb c' LF then
              (mkRow EmptyString (String CR (String LF EmptyString)),
               let rs := split s'' in fst rs :: snd rs)
            else (mkRow EmptyString (String CR EmptyString), let rs := split s' in fst rs :: snd rs)
        | EmptyString => (mkRow EmptyString (String CR EmptyString), [mkRow EmptyString EmptyString])
        end
      else
        let rs := split s' in
        (mkRow (String c (text (fst rs))) (ending (fst rs)), snd rs)
  end.

(** Modelled from the spec: the buffer that holds a text. *)
Definition fromText (s : string) : t := mk (fst (split s)) (snd (split s)).

(** A range of the host, two points. *)
Record Range : Type := mkRange { start : Point; end_ : Point }.

(** Modelled from the spec: [lineForRow(row)], the text of a row without
    its terminator; outside of the buffer it is [undefined]. *)
Definition lineForRow (b : t) (row : Z) : option string := item (getLines b) row.

(** Modelled from the spec: [rangeForRow(row, includeNewline)], the range
    of a row of the buffer: from its start to the end of its text, or to
    the start of the next row when the terminator is included and there is
    a next row. *)
Definition rangeForRow (b : t) (row : Z) (includeNewline : bool) : Range :=
  let row := Z.min (Z.max row 0) (getLastRow b) in
  if includeNewline && (row <? getLastRow b)
  then mkRange (mkPoint row 0) (mkPoint (row + 1) 0)
  else mkRange (mkPoint row 0) (mkPoint row (lineLengthForRow b row)).

End TextBuffer.

Module Atom.

(** Modelled from the spec: of the editor of the host the geometry needs
    its buffer only. *)
Record TextEditor : Type := mkEditor { buffer : TextBuffer.t }.

Definition getBuffer (editor : TextEditor) : TextBuffer.t := buffer editor.

(** Modelled from the spec: what the host reports to its subscribers
    ([onDidChange], [onDidSave], [onDidDestroy]). A change comes with the
    contents of the buffer after it. *)
Inductive Event : Type :=
| DidChange (contents : TextBuffer.t)
| DidSave
| DidDestroy.

(** Modelled from the spec: what the host does with [editor.save()], as
    far as the subscribers can see: it saves and reports it before it returns, it returns without
    a report (it has nothing to save, the save does not occur, or the
    report comes later as an event), or it throws. *)
Inductive SaveRequest : Type :=
| SaveReported
| SaveSilent
| SaveThrows (e : Error).

End Atom.

(** ** atom-shim.ts *)

Module AtomShim.

Local Open Scope Z_scope.
Local Open Scope js_scope.

Definition convertToPosition (point : TextBuffer.Point) : M Alloc Position.t :=
  Position.new (TextBuffer.row point) (TextBuffer.column point).

Definition convertFromPosition (position : Position.t) : TextBuffer.Point :=
  TextBuffer.mkPoint (Position.line position) (Position.character position).

(** *** class AtomTextDocument *)

Record AtomTextDocument : Type := mk { editor : Atom.TextEditor; version : Z }.

Definition lineCount (this : AtomTextDocument) : Z :=
  TextBuffer.getLineCount (Atom.getBuffer (editor this)).

(** [offsetAt(position)] *)
Definition offsetAt (this : AtomTextDocument) (position : Position.t) : Res Z :=
  TextBuffer.characterIndexForPosition (Atom.getBuffer (editor this))
    (convertFromPosition position).

(** [positionAt(offset)] *)
Definition positionAt (this : AtomTextDocument) (offset : Z) : M Alloc Position.t :=
  convertToPosition
    (TextBuffer.positionForCharacterIndex (Atom.getBuffer (editor this)) offset).

(** The body of [validatePosition] up to the test of [hasChanged]: the
    final values of [line], [character] and [hasChanged]. *)
Definition clamp (lines : list string) (line character : Z) : Res (Z * Z * bool) :=
  if line <? 0 then Ok (0, 0, true)
  else if line >=? arrlen lines then
    let line := arrlen lines - 1 in
    match item lines line with
    | Some l => Ok (line, strlen l, true)
    | None => Throw TypeError
    end
  else
    match item lines line with
    | Some l =>
        let maxCharacter := strlen l in
        if character <? 0 then Ok (line, 0, true)
        else if character >? maxCharacter then Ok (line, maxCharacter, true)
        else Ok (line, character, false)
    | None => Throw TypeError
    end.

(** [validatePosition(position)] *)
Definition validatePosition (this : AtomTextDocument) (position : Value)
  : M Alloc Position.t :=
  match position with
  | VPosition position =>
      let lines := TextBuffer.getLines (Atom.getBuffer (editor this)) in
      clamped <- lift (clamp lines (Position.line position) (Position.character position)) ;;
      let '(line, character, hasChanged) := clamped in
      if negb hasChanged then ret position
      else Position.new line character
  | _ => throw InvalidArgument
  end.

(** [validateRange(range)] *)
Definition validateRange (this : AtomTextDocument) (range : Range.t) : M Alloc Range.t :=
  start <- validatePosition this (VPosition (Range.start range)) ;;
  end_ <- validatePosition this (VPosition (Range.end_ range)) ;;
  if Position.same start (Range.start range) && Position.same end_ (Range.end_ range)
  then ret range
  else Range.new (VNumber (Position.line start)) (VNumber (Position.character start))
                 (VNumber (Position.line end_)) (VNumber (Position.character end_)).

(** *** The constructor and the notifications of the host

    The constructor sets [version] to 1 and subscribes [() => this.version++]
    to the changes of the editor; the subscription is disposed of when the
    editor reports that it is destroyed. [listening] says that the
    subscription has not been disposed of. *)
Record Adapter : Type := mkAdapter { document : AtomTextDocument; listening : bool }.

Definition new (editor : Atom.TextEditor) : Adapter := mkAdapter (mk editor 1) true.

(** The change handler of the constructor. *)
Definition onDidChange (this : AtomTextDocument) : AtomTextDocument :=
  mk (editor this) (version this + 1).

(** The host reports an event: the handlers still subscribed run. *)
Definition notify (e : Atom.Event) (a : Adapter) : Adapter :=
  match e with
  | Atom.DidChange contents =>
      let changed := mk (Atom.mkEditor contents) (version (document a)) in
      if listening a then mkAdapter (onDidChange changed) true
      else mkAdapter changed false
  | Atom.DidSave => a
  | Atom.DidDestroy => mkAdapter (document a) false
  end.

Definition notifyAll (events : list Atom.Event) (a : Adapter) : Adapter :=
  fold_left (fun a e => notify e a) events a.

(** *** save()

    The promise [save] returns, and the subscription to [onDidSave] of
    its executor. *)
Inductive Promise : Type :=
| Pending
| Resolved (value : bool)
| Rejected (reason : Error).

Definition resolve (value : bool) (p : Promise) : Promise :=
  match p with Pending => Resolved value | _ => p end.

Definition reject (reason : Error) (p : Promise) : Promise :=
  match p with Pending => Rejected reason | _ => p end.

Record Saving : Type := mkSaving { promise : Promise; subscribed : bool }.

(** The handler of [onDidSave]: [disposer.dispose(); resolve(true)]. *)
Definition onDidSave (s : Saving) : Saving :=
  if subscribed s then mkSaving (resolve true (promise s)) false else s.

(** [save()]: the executor subscribes the handler, then calls
    [this.editor.save()]; an executor that throws rejects the promise. *)
Definition save (host : Atom.SaveRequest) : Saving :=
  let s := mkSaving Pending true in
  match host with
  | Atom.SaveReported => onDidSave s
  | Atom.SaveSilent => s
  | Atom.SaveThrows e => mkSaving (reject e (promise s)) (subscribed s)
  end.

(** The events the host reports after [save()] has returned. *)
Definition afterSave (events : list Atom.Event) (s : Saving) : Saving :=
  fold_left (fun s e => match e with Atom.DidSave => onDidSave s | _ => s end) events s.

(** *** The conversions of ranges, and lineAt *)

Definition convertToRange (range : TextBuffer.Range) : M Alloc Range.t :=
  start <- convertToPosition (TextBuffer.start range) ;;
  end_ <- convertToPosition (TextBuffer.end_ range) ;;
  Range.new (VPosition start) (VPosition end_) VUndefined VUndefined.

Definition convertFromRange (range : Range.t) : TextBuffer.Range :=
  TextBuffer.mkRange (convertFromPosition (Range.start range))
                     (convertFromPosition (Range.end_ range)).

(** The class [\s] of a regular expression, on the characters of the
    model: tab, line feed, vertical tab, form feed, carriage return, space
    and no-break space. *)
Definition isWhitespace (c : ascii) : bool :=
  let n := nat_of_ascii c in
  (n =? 9)%nat || (n =? 10)%nat || (n =? 11)%nat || (n =? 12)%nat
  || (n =? 13)%nat || (n =? 32)%nat || (n =? 160)%nat.

(** The group that [exec] returns for the expression of [lineAt], which
    matches whitespace from the start of the text: the longest prefix of
    whitespace. *)
Fixpoint leadingWhitespace (text : string) : string :=
  match text with
  | String c rest =>
      if isWhitespace c then String c (leadingWhitespace rest) else EmptyString
  | EmptyString => EmptyString
  end.

Record TextLine : Type := mkTextLine {
  lineNumber : Z;
  text : string;
  range : Range.t;
  rangeIncludingLineBreak : Range.t;
  firstNonWhitespaceCharacterIndex : Z;
  isEmptyOrWhitespace : bool;
}.

(** [lineAt(lineOrPosition)], on a Position or a number. When the host
    has no such row [text] is [undefined]: [exec] then runs on the string
    "undefined", and [text.length] throws. *)
Definition lineAt (this : AtomTextDocument) (lineOrPosition : Position.t + Z)
  : M Alloc TextLine :=
  let lineNumber :=
    match lineOrPosition with
    | inl position => Position.line position
    | inr number => number
    end in
  let buffer := Atom.getBuffer (editor this) in
  let text := TextBuffer.lineForRow buffer lineNumber in
  range <- convertToRange (TextBuffer.rangeForRow buffer lineNumber false) ;;
  rangeIncludingLineBreak <-
    convertToRange (TextBuffer.rangeForRow buffer lineNumber true) ;;
  let firstNonWhitespaceCharacterIndex :=
    strlen (leadingWhitespace (default "undefined"%string text)) in
  match text with
  | None => throw TypeError
  | Some text =>
      ret (mkTextLine lineNumber text range rangeIncludingLineBreak
             firstNonWhitespaceCharacterIndex
             (firstNonWhitespaceCharacterIndex =? strlen text))
  end.

End AtomShim.

(** The document of the round-trip property: the text "abc\ndef". *)
Definition abc_def : AtomShim.AtomTextDocument :=
  AtomShim.mk
    (Atom.mkEditor (TextBuffer.fromText ("abc" ++ String TextBuffer.LF "def"))) 1.

(** ** Vocabulary of the properties *)

(** A range whose start is not after its end. *)
Definition wellOrdered (r : Range.t) : Prop :=
  Position.isBeforeOrEqual (Range.start r) (Range.end_ r) = true.

(** The lines of the buffer of a document. *)
Definition linesOf (this : AtomShim.AtomTextDocument) : list string :=
  TextBuffer.getLines (Atom.getBuffer (AtomShim.editor this)).

(** A position that lies in the document. *)
Definition inBounds (this : AtomShim.AtomTextDocument) (p : Position.t) : bool :=
  (0 <=? Position.line p)%Z && (Position.line p <? AtomShim.lineCount this)%Z
  && match item (linesOf this) (Position.line p) with
     | Some l => (0 <=? Position.character p)%Z && (Position.character p <=? strlen l)%Z
     | None => false
     end.

(** The offset of the end of the text, and an offset that lies in it. *)
Definition maxOffset (this : AtomShim.AtomTextDocument) : Z :=
  let b := Atom.getBuffer (AtomShim.editor this) in
  TextBuffer.charactersBefore (TextBuffer.rows b) (length (TextBuffer.rows b)).

Definition offsetInBounds (this : AtomShim.AtomTextDocument) (offset : Z) : bool :=
  (0 <=? offset)%Z && (offset <=? maxOffset this)%Z.

Definition isDidSave (e : Atom.Event) : bool :=
  match e with Atom.DidSave => true | _ => false end.

Definition isDidDestroy (e : Atom.Event) : bool :=
  match e with Atom.DidDestroy => true | _ => false end.

(** A resource and a range, for the examples. *)
Definition someUri : Uri.t := Uri.mk 0 "file:///a.ts".
Definition someRange : Range.t :=
  Range.mk (Position.mk 1 0 0) (Position.mk 2 0 5).

(** Another resource, for the examples with two of them. *)
Definition otherUri : Uri.t := Uri.mk 1 "file:///b.ts".

(** The keys of a program in the order in which it first stores under
    them, after the keys [seen]. *)
Fixpoint firstTouches (program : list WorkspaceEdit.Call) (seen : list string)
  : list string :=
  match program with
  | [] => seen
  | c :: program =>
      match WorkspaceEdit.key c with
      | Some k =>
          firstTouches program (if decide (k ∈ seen) then seen else seen ++ [k])
      | None => firstTouches program seen
      end
  end.

(** The number of the changes that the host reports before it reports
    the destruction of the editor. *)
Fixpoint changesBeforeDestroy (events : list Atom.Event) : Z :=
  match events with
  | [] => 0
  | Atom.DidChange _ :: events => 1 + changesBeforeDestroy events
  | Atom.DidSave :: events => changesBeforeDestroy events
  | Atom.DidDestroy :: _ => 0
  end.

(** A position whose line and character are not negative, as the
    constructor of Position leaves them. *)
Definition valid (p : Position.t) : Prop :=
  (0 <= Position.line p)%Z /\ (0 <= Position.character p)%Z.

(** The objects with a function [dispose] among the arguments of [from]. *)
Definition disposed (disposables : list Disposable.Argument) : list nat :=
  omap (fun d => match d with Disposable.WithDispose id => Some id | _ => None end)
       disposables.

(** * Properties *)

(** ** The order on positions *)

Section Order.
Local Open Scope Z_scope.
Implicit Types p q : Position.t.

Lemma isBefore_true p q :
  Position.isBefore p q = true <->
  Position._line p < Position._line q
  \/ (Position._line p = Position._line q
      /\ Position._character p < Position._character q).
Proof.
  unfold Position.isBefore.
  destruct (Z.ltb_spec (Position._line p) (Position._line q)); [intuition lia |].
  destruct (Z.ltb_spec (Position._line q) (Position._line p)); [intuition (congruence || lia) |].
  rewrite Z.ltb_lt. lia.
Qed.

Lemma isBefore_false p q :
  Position.isBefore p q = false <->
  Position._line q < Position._line p
  \/ (Position._line p = Position._line q
      /\ Position._character q <= Position._character p).
Proof.
  unfold Position.isBefore.
  destruct (Z.ltb_spec (Position._line p) (Position._line q)); [intuition (congruence || lia) |].
  destruct (Z.ltb_spec (Position._line q) (Position._line p)); [intuition lia |].
  rewrite Z.ltb_ge. lia.
Qed.

Lemma isBeforeOrEqual_true p q :
  Position.isBeforeOrEqual p q = true <->
  Position._line p < Position._line q
  \/ (Position._line p = Position._line q
      /\ Position._character p <= Position._character q).
Proof.
  unfold Position.isBeforeOrEqual.
  destruct (Z.ltb_spec (Position._line p) (Position._line q)); [intuition lia |].
  destruct (Z.ltb_spec (Position._line q) (Position._line p)); [intuition (congruence || lia) |].
  rewrite Z.leb_le. lia.
Qed.

Lemma isBeforeOrEqual_false p q :
  Position.isBeforeOrEqual p q = false <->
  Position._line q < Position._line p
  \/ (Position._line p = Position._line q
      /\ Position._character q < Position._character p).
Proof.
  unfold Position.isBeforeOrEqual.
  destruct (Z.ltb_spec (Position._line p) (Position._line q)); [intuition (congruence || lia) |].
  destruct (Z.ltb_spec (Position._line q) (Position._line p)); [intuition lia |].
  rewrite Z.leb_gt. lia.
Qed.

Lemma isAfter_true p q :
  Position.isAfter p q = true <-> Position.isBeforeOrEqual p q = false.
Proof. unfold Position.isAfter. destruct (Position.isBeforeOrEqual p q); simpl; intuition congruence. Qed.

Lemma isAfter_false p q :
  Position.isAfter p q = false <-> Position.isBeforeOrEqual p q = true.
Proof. unfold Position.isAfter. destruct (Position.isBeforeOrEqual p q); simpl; intuition congruence. Qed.

Lemma isAfterOrEqual_true p q :
  Position.isAfterOrEqual p q = true <-> Position.isBefore p q = false.
Proof. unfold Position.isAfterOrEqual. destruct (Position.isBefore p q); simpl; intuition congruence. Qed.

Lemma isEqual_true p q :
  Position.isEqual p q = true <->
  Position._line p = Position._line q /\ Position._character p = Position._character q.
Proof. unfold Position.isEqual. rewrite andb_true_iff, !Z.eqb_eq. tauto. Qed.

Lemma isEqual_false p q :
  Position.isEqual p q = false <->
  Position._line p <> Position._line q \/ Position._character p <> Position._character q.
Proof. unfold Position.isEqual. rewrite andb_false_iff, !Z.eqb_neq. tauto. Qed.
End Order.

(** Turns the comparisons of positions in the context and in the goal
    into linear arithmetic on the fields. *)
Ltac order :=
  unfold Position.line, Position.character in *;
  repeat match goal with
    | H : Position.isAfter _ _ = true |- _ => rewrite isAfter_true in H
    | H : Position.isAfter _ _ = false |- _ => rewrite isAfter_false in H
    | H : Position.isAfterOrEqual _ _ = true |- _ => rewrite isAfterOrEqual_true in H
    | H : Position.isBefore _ _ = true |- _ => rewrite isBefore_true in H
    | H : Position.isBefore _ _ = false |- _ => rewrite isBefore_false in H
    | H : Position.isBeforeOrEqual _ _ = true |- _ => rewrite isBeforeOrEqual_true in H
    | H : Position.isBeforeOrEqual _ _ = false |- _ => rewrite isBeforeOrEqual_false in H
    | H : Position.isEqual _ _ = true |- _ => rewrite isEqual_true in H
    | H : Position.isEqual _ _ = false |- _ => rewrite isEqual_false in H
    end;
  try match goal with
    | |- Position.isAfter _ _ = true => rewrite isAfter_true
    | |- Position.isAfter _ _ = false => rewrite isAfter_false
    | |- Position.isAfterOrEqual _ _ = true => rewrite isAfterOrEqual_true
    end;
  try match goal with
    | |- Position.isBefore _ _ = true => rewrite isBefore_true
    | |- Position.isBefore _ _ = false => rewrite isBefore_false
    | |- Position.isBeforeOrEqual _ _ = true => rewrite isBeforeOrEqual_true
    | |- Position.isBeforeOrEqual _ _ = false => rewrite isBeforeOrEqual_false
    | |- Position.isEqual _ _ = true => rewrite isEqual_true
    | |- Position.isEqual _ _ = false => rewrite isEqual_false
    end;
  simpl in *; lia.

(** Splits on every comparison of positions that the goal tests. *)
Ltac compare_positions :=
  repeat match goal with
    | |- context [Position.isAfter ?x ?y] =>
        let E := fresh "E" in destruct (Position.isAfter x y) eqn:E
    | |- context [Position.isBefore ?x ?y] =>
        let E := fresh "E" in destruct (Position.isBefore x y) eqn:E
    end.

Lemma total_order (p q : Position.t) :
  (Position.isBefore p q = true /\ Position.isEqual p q = false
   /\ Position.isAfter p q = false)
  \/ (Position.isBefore p q = false /\ Position.isEqual p q = true
      /\ Position.isAfter p q = false)
  \/ (Position.isBefore p q = false /\ Position.isEqual p q = false
      /\ Position.isAfter p q = true).
Proof.
  destruct (Position.isBefore p q) eqn:E1, (Position.isEqual p q) eqn:E2,
    (Position.isAfter p q) eqn:E3; auto; exfalso; order.
Qed.

Lemma Min_pair (p q : Position.t) :
  Position.Min [p; q] = Some (if Position.isBefore p q then p else q).
Proof. reflexivity. Qed.

Lemma Max_pair (p q : Position.t) :
  Position.Max [p; q] = Some (if Position.isAfter p q then p else q).
Proof. reflexivity. Qed.

Lemma ordered_wellOrdered (p q : Position.t) : wellOrdered (Range.ordered p q).
Proof.
  unfold wellOrdered, Range.ordered.
  destruct (Position.isBefore p q) eqn:E; simpl; order.
Qed.

Lemma ordered_endpoints (p q : Position.t) :
  (Range.start (Range.ordered p q) = p /\ Range.end_ (Range.ordered p q) = q)
  \/ (Range.start (Range.ordered p q) = q /\ Range.end_ (Range.ordered p q) = p).
Proof. unfold Range.ordered. destruct (Position.isBefore p q); simpl; auto. Qed.

Lemma new_of_positions (p q : Position.t) (c d : Value) (h : Alloc) :
  Range.new (VPosition p) (VPosition q) c d h = Ok (Range.ordered p q, h).
Proof. reflexivity. Qed.

Lemma intersection_pair (a b : Range.t) :
  Range.intersection a b =
  let start := if Position.isAfter (Range.start b) (Range.start a)
               then Range.start b else Range.start a in
  let end_ := if Position.isBefore (Range.end_ b) (Range.end_ a)
              then Range.end_ b else Range.end_ a in
  if Position.isAfter start end_ then Ok None
  else Ok (Some (Range.ordered start end_)).
Proof. reflexivity. Qed.

Lemma union_cases (a b : Range.t) :
  Range.union a b = Ok a \/ Range.union a b = Ok b
  \/ exists p q, Range.union a b = Ok (Range.ordered p q).
Proof.
  unfold Range.union.
  destruct (Range.contains a (inr b)); [auto |].
  destruct (Range.contains b (inr a)); [auto |].
  rewrite Min_pair, Max_pair. right; right; eauto.
Qed.

(** ** Ranges *)

(** C2. The constructor of Range, called on two Positions in either
    order, never throws and stores the two Positions with the start not
    after the end; when p1 is before p2, [new Range(p2, p1)] and
    [new Range(p1, p2)] store the same start p1 and the same end p2; and
    the ranges that [with], [union] and [intersection] return have their
    start not after their end, the receiver and the argument being ranges
    that the constructor has built, which have this property. *)
Theorem Range_is_normalized :
  (forall (p1 p2 : Position.t) (c d : Value) (h : Alloc),
      exists r, Range.new (VPosition p1) (VPosition p2) c d h = Ok (r, h)
                /\ wellOrdered r
                /\ ((Range.start r = p1 /\ Range.end_ r = p2)
                    \/ (Range.start r = p2 /\ Range.end_ r = p1)))
  /\ (forall (p1 p2 : Position.t) (c d c' d' : Value) (h : Alloc),
         Position.isBefore p1 p2 = true ->
         Range.new (VPosition p2) (VPosition p1) c d h = Ok (Range.mk p1 p2, h)
         /\ Range.new (VPosition p1) (VPosition p2) c' d' h = Ok (Range.mk p1 p2, h))
  /\ (forall (a b : Range.t),
         wellOrdered a -> wellOrdered b ->
         (forall start end_ : option Position.t, wellOrdered (Range.with_ a start end_))
         /\ (exists u, Range.union a b = Ok u /\ wellOrdered u)
         /\ (exists i, Range.intersection a b = Ok i
                       /\ forall r, i = Some r -> wellOrdered r)).
Proof.
  split; [| split].
  - intros p1 p2 c d h. exists (Range.ordered p1 p2).
    split; [apply new_of_positions |].
    split; [apply ordered_wellOrdered | apply ordered_endpoints].
  - intros p1 p2 c d c' d' h Hlt. rewrite !new_of_positions.
    unfold Range.ordered. rewrite Hlt.
    replace (Position.isBefore p2 p1) with false by (symmetry; order).
    split; reflexivity.
  - intros a b Ha Hb. split; [| split].
    + intros start end_. unfold Range.with_.
      destruct (_ && _); [exact Ha | apply ordered_wellOrdered].
    + destruct (union_cases a b) as [E | [E | (p & q & E)]]; rewrite E; eauto.
      eexists; split; [reflexivity | apply ordered_wellOrdered].
    + rewrite intersection_pair. cbv zeta.
      destruct (Position.isAfter _ _); eexists; (split; [reflexivity |]).
      * discriminate.
      * intros r [= <-]. apply ordered_wellOrdered.
Qed.

(** The property at the positions (0,0) and (0,5), and at the union of
    [0,0]-[0,5] with [0,3]-[1,0]. *)
Lemma Range_is_normalized_witness :
  let p1 := Position.mk 0 0 0 in
  let p2 := Position.mk 1 0 5 in
  let a := Range.mk p1 p2 in
  let b := Range.mk (Position.mk 2 0 3) (Position.mk 3 1 0) in
  (Range.new (VPosition p2) (VPosition p1) VUndefined VUndefined 4%nat
   = Ok (Range.mk p1 p2, 4%nat)
   /\ Range.new (VPosition p1) (VPosition p2) VUndefined VUndefined 4%nat
      = Ok (Range.mk p1 p2, 4%nat))
  /\ (exists u, Range.union a b = Ok u /\ wellOrdered u).
Proof.
  intros p1 p2 a b.
  destruct Range_is_normalized as (_ & Hswap & Hops).
  split.
  - apply (Hswap p1 p2). reflexivity.
  - destruct (Hops a b) as (_ & Hu & _); [reflexivity | reflexivity | exact Hu].
Defined.

(** C4. [a.intersection(b)] and [b.intersection(a)] are both absent or
    both present and equal as ranges; two ranges that touch, the end of
    the first being the start of the second, intersect in the empty range
    at that point, as [0,0]-[0,5] and [0,5]-[0,10] do in [0,5]-[0,5]; the
    disjoint ranges [0,0]-[0,5] and [0,6]-[0,10] have no intersection. *)
Theorem intersection_commutes :
  (forall a b : Range.t,
      match Range.intersection a b, Range.intersection b a with
      | Ok None, Ok None => True
      | Ok (Some r), Ok (Some r') => Range.isEqual r r' = true
      | _, _ => False
      end)
  /\ (forall a b : Range.t,
         wellOrdered a -> wellOrdered b ->
         Position.isEqual (Range.end_ a) (Range.start b) = true ->
         exists r, Range.intersection a b = Ok (Some r)
                   /\ Position.isEqual (Range.start r) (Range.end_ a) = true
                   /\ Position.isEqual (Range.end_ r) (Range.end_ a) = true
                   /\ Range.isEmpty r = true)
  /\ (forall i j k l : nat,
         exists r,
           Range.intersection (Range.mk (Position.mk i 0 0) (Position.mk j 0 5))
                              (Range.mk (Position.mk k 0 5) (Position.mk l 0 10))
           = Ok (Some r)
           /\ Position.line (Range.start r) = 0%Z
           /\ Position.character (Range.start r) = 5%Z
           /\ Position.line (Range.end_ r) = 0%Z
           /\ Position.character (Range.end_ r) = 5%Z)
  /\ (forall i j k l : nat,
         Range.intersection (Range.mk (Position.mk i 0 0) (Position.mk j 0 5))
                            (Range.mk (Position.mk k 0 6) (Position.mk l 0 10))
         = Ok None).
Proof.
  split; [| split; [| split]].
  - intros [s e] [s' e']. rewrite !intersection_pair.
    unfold Range.ordered, Range.isEqual. cbv zeta. simpl.
    destruct (Position.isAfter s' s) eqn:E1, (Position.isAfter s s') eqn:E2;
      try (exfalso; order);
      destruct (Position.isBefore e' e) eqn:E3, (Position.isBefore e e') eqn:E4;
      try (exfalso; order);
      compare_positions; simpl; try exact I; try (exfalso; order);
      apply andb_true_iff; split; order.
  - intros [s e] [s' e'] Ha Hb Htouch. unfold wellOrdered in *. simpl in *.
    rewrite intersection_pair. unfold Range.ordered, Range.isEmpty. cbv zeta. simpl.
    destruct (Position.isAfter s' s) eqn:E1, (Position.isBefore e' e) eqn:E2;
      compare_positions; simpl; try (exfalso; order);
      (eexists; split; [reflexivity |]); simpl; repeat split; order.
  - intros i j k l. eexists. split; [reflexivity |]. simpl. auto.
  - intros i j k l. reflexivity.
Qed.

(** The touching ranges [0,0]-[0,5] and [0,5]-[0,10]. *)
Lemma intersection_commutes_witness :
  exists r,
    Range.intersection (Range.mk (Position.mk 0 0 0) (Position.mk 1 0 5))
                       (Range.mk (Position.mk 2 0 5) (Position.mk 3 0 10))
    = Ok (Some r)
    /\ Range.isEmpty r = true.
Proof.
  destruct intersection_commutes as (_ & Htouch & _).
  destruct (Htouch (Range.mk (Position.mk 0 0 0) (Position.mk 1 0 5))
                   (Range.mk (Position.mk 2 0 5) (Position.mk 3 0 10)))
    as (r & E & _ & _ & Hempty); [reflexivity | reflexivity | reflexivity |].
  exists r. split; [exact E | exact Hempty].
Defined.

(** ** Selections *)

(** C7. For two Positions anchor and active, two different objects
    having different identities, the constructor of Selection does not
    throw; the selection reports [anchor] and [active] as they were given;
    its [start] and [end] are these two Positions, the start not after the
    end; and [isReversed] is true exactly when the anchor is the end point
    of the range, that is when the anchor is not before the active point
    (when the two coincide the anchor is stored as the end). *)
Theorem Selection_keeps_its_endpoints :
  forall (anchor active : Position.t) (c d : Value) (h : Alloc),
    (Position.oid anchor = Position.oid active -> anchor = active) ->
    exists s,
      Selection.new (VPosition anchor) (VPosition active) c d h = Ok (s, h)
      /\ Selection.anchor s = anchor
      /\ Selection.active s = active
      /\ ((Selection.start s = anchor /\ Selection.end_ s = active)
          \/ (Selection.start s = active /\ Selection.end_ s = anchor))
      /\ Position.isBeforeOrEqual (Selection.start s) (Selection.end_ s) = true
      /\ (Selection.isReversed s = true <-> Selection.end_ s = anchor)
      /\ (Selection.isReversed s = true <-> Position.isBefore anchor active = false).
Proof.
  intros anchor active c d h Hid.
  exists (Selection.mk (Range.ordered anchor active) anchor active).
  split; [reflexivity |].
  unfold Selection.anchor, Selection.active, Selection.start, Selection.end_,
    Selection.isReversed, Position.same. simpl.
  split; [reflexivity |]. split; [reflexivity |].
  split; [apply ordered_endpoints |].
  split; [apply ordered_wellOrdered |].
  unfold Range.ordered, Range.end_.
  destruct (Position.isBefore anchor active) eqn:E; simpl.
  - assert (Hne : Position.oid anchor <> Position.oid active).
    { intros Heq. apply Hid in Heq. subst active. order. }
    apply Nat.eqb_neq in Hne. rewrite Hne.
    split; split; try discriminate.
    intros ->. exfalso. order.
  - rewrite Nat.eqb_refl. tauto.
Qed.

(** A selection from (2,4) back to (1,7). *)
Lemma Selection_keeps_its_endpoints_witness :
  exists s,
    Selection.new (VPosition (Position.mk 0 2 4)) (VPosition (Position.mk 1 1 7))
      VUndefined VUndefined 2%nat = Ok (s, 2%nat)
    /\ Selection.isReversed s = true.
Proof.
  destruct (Selection_keeps_its_endpoints (Position.mk 0 2 4) (Position.mk 1 1 7)
              VUndefined VUndefined 2%nat) as (s & E & _ & _ & _ & _ & _ & Hrev).
  - simpl. discriminate.
  - exists s. split; [exact E |]. apply Hrev. reflexivity.
Defined.

(** When the two endpoints coincide the constructor of Range stores the
    first one, the anchor, as the end: such a selection is reversed. *)
Lemma isReversed_of_coinciding_endpoints (anchor active : Position.t) (h : Alloc) :
  Position.isEqual anchor active = true ->
  exists s,
    Selection.new (VPosition anchor) (VPosition active) VUndefined VUndefined h
    = Ok (s, h)
    /\ Selection.isReversed s = true.
Proof.
  intros Heq. exists (Selection.mk (Range.ordered anchor active) anchor active).
  split; [reflexivity |].
  unfold Selection.isReversed, Position.same, Range.ordered. simpl.
  replace (Position.isBefore anchor active) with false by (symmetry; order).
  simpl. apply Nat.eqb_refl.
Qed.

(** ** The lines of a document *)

Section Clamp.
Local Open Scope Z_scope.

Lemma strlen_nonneg (s : string) : 0 <= strlen s.
Proof. unfold strlen. lia. Qed.

Lemma item_Some {A : Type} (l : list A) (i : Z) :
  0 <= i < arrlen l -> exists x, item l i = Some x.
Proof.
  intros Hi. unfold item, arrlen in *.
  destruct (Z.ltb_spec i 0); [lia |].
  apply lookup_lt_is_Some. lia.
Qed.

Lemma item_range {A : Type} (l : list A) (i : Z) (x : A) :
  item l i = Some x -> 0 <= i < arrlen l.
Proof.
  unfold item, arrlen. destruct (Z.ltb_spec i 0); [discriminate |].
  intros Hx. apply lookup_lt_Some in Hx. lia.
Qed.

Lemma item_last {A : Type} (l : list A) : item l (arrlen l - 1) = last l.
Proof.
  unfold item, arrlen. destruct l as [| x l]; [reflexivity |].
  destruct (Z.ltb_spec (Z.of_nat (length (x :: l)) - 1) 0); [simpl in *; lia |].
  rewrite last_lookup. f_equal. simpl. lia.
Qed.

Lemma lines_nonempty (this : AtomShim.AtomTextDocument) : 0 < arrlen (linesOf this).
Proof. unfold linesOf, TextBuffer.getLines, TextBuffer.rows, arrlen. simpl. lia. Qed.

Lemma lineCount_lines (this : AtomShim.AtomTextDocument) :
  AtomShim.lineCount this = arrlen (linesOf this).
Proof.
  unfold AtomShim.lineCount, TextBuffer.getLineCount, linesOf, TextBuffer.getLines, arrlen.
  by rewrite length_map.
Qed.

(** What [clamp] computes on the lines of a buffer. *)
Lemma clamp_in_bounds (lines : list string) (line character : Z) (l : string) :
  item lines line = Some l -> 0 <= character <= strlen l ->
  AtomShim.clamp lines line character = Ok (line, character, false).
Proof.
  intros Hl Hc. pose proof (item_range _ _ _ Hl) as Hr.
  unfold AtomShim.clamp.
  destruct (Z.ltb_spec line 0); [lia |].
  destruct (Z.geb_spec line (arrlen lines)); [lia |].
  rewrite Hl.
  destruct (Z.ltb_spec character 0); [lia |].
  destruct (Z.gtb_spec character (strlen l)); [lia | reflexivity].
Qed.

Lemma clamp_spec (lines : list string) (line character : Z) :
  0 < arrlen lines ->
  exists line' character' hasChanged l,
    AtomShim.clamp lines line character = Ok (line', character', hasChanged)
    /\ item lines line' = Some l
    /\ 0 <= character' <= strlen l
    /\ (hasChanged = false -> line' = line /\ character' = character)
    /\ (hasChanged = true -> line' <> line \/ character' <> character)
    /\ (line < 0 -> line' = 0 /\ character' = 0)
    /\ (0 <= line -> arrlen lines <= line ->
        line' = arrlen lines - 1 /\ last lines = Some l /\ character' = strlen l)
    /\ (0 <= line < arrlen lines ->
        line' = line
        /\ (character < 0 -> character' = 0)
        /\ (strlen l < character -> character' = strlen l)
        /\ (0 <= character <= strlen l -> character' = character)).
Proof.
  intros Hne. unfold AtomShim.clamp.
  destruct (Z.ltb_spec line 0) as [Hneg | Hpos].
  - destruct (item_Some lines 0) as [l Hl]; [lia |].
    exists 0, 0, true, l. pose proof (strlen_nonneg l).
    repeat split; try (intros; lia); try discriminate; auto.
  - destruct (Z.geb_spec line (arrlen lines)) as [Hge | Hlt].
    + destruct (item_Some lines (arrlen lines - 1)) as [l Hl]; [lia |].
      rewrite Hl. exists (arrlen lines - 1), (strlen l), true, l.
      pose proof (strlen_nonneg l).
      repeat split; try (intros; lia); try discriminate; auto.
      by rewrite <- item_last.
    + destruct (item_Some lines line) as [l Hl]; [lia |].
      rewrite Hl. pose proof (strlen_nonneg l).
      destruct (Z.ltb_spec character 0).
      { exists line, 0, true, l.
        repeat split; try (intros; lia); try discriminate; auto. }
      destruct (Z.gtb_spec character (strlen l)).
      { exists line, (strlen l), true, l.
        repeat split; try (intros; lia); try discriminate; auto. }
      exists line, character, false, l.
      repeat split; try (intros; lia); try discriminate; auto.
Qed.
End Clamp.

Section Validate.
Local Open Scope Z_scope.

Lemma new_nonneg (line character : Z) (h : Alloc) :
  0 <= line -> 0 <= character ->
  Position.new line character h = Ok (Position.mk h line character, S h).
Proof.
  intros Hl Hc. unfold Position.new.
  destruct (Z.ltb_spec line 0); [lia |].
  destruct (Z.ltb_spec character 0); [lia | reflexivity].
Qed.

Lemma validatePosition_in_bounds (this : AtomShim.AtomTextDocument)
      (p : Position.t) (h : Alloc) (l : string) :
  item (linesOf this) (Position.line p) = Some l ->
  0 <= Position.character p <= strlen l ->
  AtomShim.validatePosition this (VPosition p) h = Ok (p, h).
Proof.
  intros Hl Hc. unfold AtomShim.validatePosition, bind, lift.
  fold (linesOf this). by rewrite (clamp_in_bounds _ _ _ l).
Qed.

(** ** validatePosition *)

(** C1. For every document and every position p, [validatePosition(p)]
    returns a position q of the document: when the line of p is negative,
    q is (0, 0); when it is at least the number of lines, q is the end of
    the last line; otherwise q has the line of p, and the character 0 when
    that of p is negative, the length of the line when that of p exceeds
    it; when the line and the character are unchanged q is p itself, the
    same object, and no object is created; and validating q again returns
    q itself. *)
Theorem validatePosition_clamps :
  forall (this : AtomShim.AtomTextDocument) (p : Position.t) (h : Alloc),
  exists (q : Position.t) (h' : Alloc) (l : string),
    AtomShim.validatePosition this (VPosition p) h = Ok (q, h')
    /\ item (linesOf this) (Position.line q) = Some l
    /\ 0 <= Position.character q <= strlen l
    /\ (Position.line p < 0 -> Position.line q = 0 /\ Position.character q = 0)
    /\ (0 <= Position.line p -> AtomShim.lineCount this <= Position.line p ->
        Position.line q = AtomShim.lineCount this - 1
        /\ last (linesOf this) = Some l
        /\ Position.character q = strlen l)
    /\ (0 <= Position.line p < AtomShim.lineCount this ->
        Position.line q = Position.line p
        /\ (Position.character p < 0 -> Position.character q = 0)
        /\ (strlen l < Position.character p -> Position.character q = strlen l)
        /\ (0 <= Position.character p <= strlen l -> q = p /\ h' = h))
    /\ (Position.line q = Position.line p ->
        Position.character q = Position.character p -> q = p /\ h' = h)
    /\ AtomShim.validatePosition this (VPosition q) h' = Ok (q, h').
Proof.
  intros this p h.
  destruct (clamp_spec (linesOf this) (Position.line p) (Position.character p)
              (lines_nonempty this))
    as (line' & character' & hasChanged & l & Hclamp & Hl & Hc & Hsame & Hdiff
        & Ha & Hb & Hcase).
  pose proof (item_range _ _ _ Hl) as Hrange.
  rewrite lineCount_lines.
  assert (Hrun : AtomShim.validatePosition this (VPosition p) h =
                 if negb hasChanged then Ok (p, h)
                 else Position.new line' character' h).
  { unfold AtomShim.validatePosition, bind, lift. fold (linesOf this).
    rewrite Hclamp. by destruct hasChanged. }
  destruct hasChanged; cbn [negb] in Hrun.
  - rewrite new_nonneg in Hrun by lia.
    exists (Position.mk h line' character'), (S h), l.
    unfold Position.line, Position.character in *.
    cbn [Position._line Position._character].
    split; [exact Hrun |]. split; [exact Hl |]. split; [exact Hc |].
    split; [exact Ha |]. split; [exact Hb |].
    split.
    { intros Hin. destruct (Hcase Hin) as (H1 & H2 & H3 & H4).
      repeat split; auto; destruct (Hdiff eq_refl); lia. }
    split; [intros; destruct (Hdiff eq_refl); lia |].
    by apply (validatePosition_in_bounds this _ _ l).
  - destruct (Hsame eq_refl) as [-> ->].
    exists p, h, l.
    split; [exact Hrun |]. split; [exact Hl |]. split; [exact Hc |].
    split; [exact Ha |]. split; [exact Hb |].
    split.
    { intros Hin. destruct (Hcase Hin) as (H1 & H2 & H3 & H4). auto. }
    split; [auto |].
    by apply (validatePosition_in_bounds this _ _ l).
Qed.

(** [validatePosition] on the position (5,0) of "abc\ndef". *)
Lemma validatePosition_clamps_witness :
  exists (q : Position.t) (h' : Alloc),
    AtomShim.validatePosition abc_def (VPosition (Position.mk 0 5 0)) 1%nat = Ok (q, h')
    /\ Position.line q = 1 /\ Position.character q = 3.
Proof.
  destruct (validatePosition_clamps abc_def (Position.mk 0 5 0) 1%nat)
    as (q & h' & l & Hrun & _ & _ & _ & Hlast & _).
  destruct Hlast as (Hline & Hl & Hchar).
  - simpl. lia.
  - vm_compute. discriminate.
  - exists q, h'. split; [exact Hrun |]. split; [exact Hline |].
    rewrite Hchar. vm_compute in Hl. injection Hl as <-. reflexivity.
Defined.

(** ** Offsets *)

Lemma getLastRow_lines (this : AtomShim.AtomTextDocument) :
  TextBuffer.getLastRow (Atom.getBuffer (AtomShim.editor this))
  = arrlen (linesOf this) - 1.
Proof.
  unfold TextBuffer.getLastRow. fold (AtomShim.lineCount this).
  by rewrite lineCount_lines.
Qed.

(** The host clips a point the way [clamp] does. *)
Lemma clipPosition_clamp (this : AtomShim.AtomTextDocument) (line character : Z)
      (line' character' : Z) (hasChanged : bool) :
  AtomShim.clamp (linesOf this) line character = Ok (line', character', hasChanged) ->
  TextBuffer.clipPosition (Atom.getBuffer (AtomShim.editor this))
    (TextBuffer.mkPoint line character)
  = TextBuffer.mkPoint line' character'.
Proof.
  unfold AtomShim.clamp, TextBuffer.clipPosition, TextBuffer.getEndPosition,
    TextBuffer.lineLengthForRow.
  rewrite getLastRow_lines. fold (linesOf this). simpl.
  destruct (Z.ltb_spec line 0); [by intros [= <- <- <-] |].
  destruct (Z.geb_spec line (arrlen (linesOf this))).
  - destruct (Z.gtb_spec line (arrlen (linesOf this) - 1)); [| lia].
    destruct (item _ _); [by intros [= <- <- <-] | discriminate].
  - destruct (Z.gtb_spec line (arrlen (linesOf this) - 1)); [lia |].
    destruct (item _ _) as [l |]; [| discriminate].
    pose proof (strlen_nonneg l).
    destruct (Z.ltb_spec character 0); [intros [= <- <- <-]; f_equal; lia |].
    destruct (Z.gtb_spec character (strlen l)); intros [= <- <- <-]; f_equal; lia.
Qed.

Lemma offsetAt_in_bounds (this : AtomShim.AtomTextDocument) (p : Position.t) (l : string) :
  item (linesOf this) (Position.line p) = Some l ->
  0 <= Position.character p <= strlen l ->
  AtomShim.offsetAt this p =
  Ok (TextBuffer.charactersBefore
        (TextBuffer.rows (Atom.getBuffer (AtomShim.editor this)))
        (Z.to_nat (Position.line p)) + Position.character p).
Proof.
  intros Hl Hc. pose proof (item_range _ _ _ Hl) as Hr.
  unfold AtomShim.offsetAt, TextBuffer.characterIndexForPosition,
    AtomShim.convertFromPosition.
  rewrite (clipPosition_clamp this _ _ _ _ false (clamp_in_bounds _ _ _ l Hl Hc)).
  simpl. unfold TextBuffer.lineLengthForRow. fold (linesOf this).
  rewrite getLastRow_lines, Hl.
  destruct (Z.ltb_spec (Position.line p) 0); [lia |].
  destruct (Z.gtb_spec (Position.line p) (arrlen (linesOf this) - 1)); [lia |].
  destruct (Z.ltb_spec (Position.character p) 0); [lia |].
  destruct (Z.gtb_spec (Position.character p) (strlen l)); [lia | reflexivity].
Qed.

Lemma offsetAt_clips (this : AtomShim.AtomTextDocument) (p q : Position.t) :
  TextBuffer.clipPosition (Atom.getBuffer (AtomShim.editor this))
    (AtomShim.convertFromPosition p) = AtomShim.convertFromPosition q ->
  TextBuffer.clipPosition (Atom.getBuffer (AtomShim.editor this))
    (AtomShim.convertFromPosition q) = AtomShim.convertFromPosition q ->
  AtomShim.offsetAt this p = AtomShim.offsetAt this q.
Proof.
  intros Hp Hq. unfold AtomShim.offsetAt, TextBuffer.characterIndexForPosition.
  by rewrite Hp, Hq.
Qed.

(** What [validatePosition] returns, in terms of [clamp]. *)
Lemma validatePosition_run (this : AtomShim.AtomTextDocument) (p : Position.t) (h : Alloc) :
  exists (line' character' : Z) (hasChanged : bool) (l : string),
    AtomShim.clamp (linesOf this) (Position.line p) (Position.character p)
    = Ok (line', character', hasChanged)
    /\ item (linesOf this) line' = Some l
    /\ 0 <= character' <= strlen l
    /\ (hasChanged = false -> line' = Position.line p /\ character' = Position.character p)
    /\ AtomShim.validatePosition this (VPosition p) h
       = Ok (if hasChanged then (Position.mk h line' character', S h) else (p, h)).
Proof.
  destruct (clamp_spec (linesOf this) (Position.line p) (Position.character p)
              (lines_nonempty this))
    as (line' & character' & hasChanged & l & Hclamp & Hl & Hc & Hsame & _).
  exists line', character', hasChanged, l.
  split; [exact Hclamp |]. split; [exact Hl |]. split; [exact Hc |].
  split; [exact Hsame |].
  pose proof (item_range _ _ _ Hl) as Hrange.
  unfold AtomShim.validatePosition, bind, lift. fold (linesOf this).
  rewrite Hclamp. destruct hasChanged; cbn [negb]; [| reflexivity].
  apply new_nonneg; lia.
Qed.

(** [offsetAt] hands the position to the host as it is. *)
Lemma offsetAt_delegates (this : AtomShim.AtomTextDocument) (p : Position.t) :
  AtomShim.offsetAt this p
  = TextBuffer.characterIndexForPosition (Atom.getBuffer (AtomShim.editor this))
      (TextBuffer.mkPoint (Position.line p) (Position.character p)).
Proof. reflexivity. Qed.

(** C5. For every position p, in the document or not, [offsetAt(p)]
    does not throw and returns the offset that [offsetAt] returns for
    [validatePosition(p)]: the position is clamped. [offsetAt] itself hands
    p to the host ([offsetAt_delegates]); it is the buffer of the host that
    clamps the point, by the policy of [validatePosition]. *)
Theorem offsetAt_clamps :
  forall (this : AtomShim.AtomTextDocument) (p : Position.t) (h : Alloc),
  exists (offset : Z) (q : Position.t) (h' : Alloc),
    AtomShim.offsetAt this p = Ok offset
    /\ AtomShim.validatePosition this (VPosition p) h = Ok (q, h')
    /\ AtomShim.offsetAt this q = Ok offset.
Proof.
  intros this p h.
  destruct (validatePosition_run this p h)
    as (line' & character' & hasChanged & l & Hclamp & Hl & Hc & Hsame & Hv).
  set (q := if hasChanged then Position.mk h line' character' else p).
  assert (Hfields : Position.line q = line' /\ Position.character q = character').
  { subst q. destruct hasChanged; [split; reflexivity |].
    destruct (Hsame eq_refl) as [-> ->]. split; reflexivity. }
  destruct Hfields as [Hline Hchar].
  assert (Hq : AtomShim.offsetAt this q
               = Ok (TextBuffer.charactersBefore
                       (TextBuffer.rows (Atom.getBuffer (AtomShim.editor this)))
                       (Z.to_nat (Position.line q)) + Position.character q)).
  { apply (offsetAt_in_bounds this q l); rewrite ?Hline, ?Hchar; assumption. }
  eexists. exists q, (if hasChanged then S h else h).
  split; [| split; [| exact Hq]].
  - rewrite <- Hq. apply offsetAt_clips.
    + unfold AtomShim.convertFromPosition at 2. rewrite Hline, Hchar.
      exact (clipPosition_clamp this _ _ _ _ _ Hclamp).
    + apply (clipPosition_clamp this _ _ _ _ false).
      apply (clamp_in_bounds _ _ _ l); rewrite ?Hline, ?Hchar; assumption.
  - rewrite Hv. subst q. by destruct hasChanged.
Qed.

(** ** The round trip on "abc\ndef" *)

(** C3. In the document whose text is "abc\ndef", [positionAt] and
    [offsetAt] are inverse of each other on what lies in the document: for
    a position pos of the document, [offsetAt(pos)] is an offset of the
    text and [positionAt] of it is equal to pos; for an offset of the text,
    [positionAt(offset)] is a position of the document and [offsetAt] of
    it is the offset. *)
Theorem positionAt_offsetAt_round_trip :
  (forall (pos : Position.t) (h : Alloc),
      inBounds abc_def pos = true ->
      exists (offset : Z) (back : Position.t) (h' : Alloc),
        AtomShim.offsetAt abc_def pos = Ok offset
        /\ offsetInBounds abc_def offset = true
        /\ AtomShim.positionAt abc_def offset h = Ok (back, h')
        /\ Position.isEqual back pos = true)
  /\ (forall (offset : Z) (h : Alloc),
         offsetInBounds abc_def offset = true ->
         exists (pos : Position.t) (h' : Alloc),
           AtomShim.positionAt abc_def offset h = Ok (pos, h')
           /\ inBounds abc_def pos = true
           /\ AtomShim.offsetAt abc_def pos = Ok offset).
Proof.
  split.
  - intros [i line character] h Hin.
    assert (Hline : line = 0 \/ line = 1).
    { unfold inBounds in Hin. simpl in Hin.
      destruct (Z.leb_spec 0 line); [| discriminate].
      change (AtomShim.lineCount abc_def) with 2 in Hin.
      destruct (Z.ltb_spec line 2); [lia | discriminate]. }
    assert (Hchar : 0 <= character <= 3).
    { destruct Hline as [-> | ->]; vm_compute in Hin;
        destruct character as [| c | c]; try discriminate; try lia;
        destruct c as [[c | c |] | [c | c |] |]; try discriminate; lia. }
    assert (Hcases : character = 0 \/ character = 1 \/ character = 2 \/ character = 3)
      by lia.
    destruct Hline as [-> | ->];
      destruct Hcases as [-> | [-> | [-> | ->]]];
      eexists; eexists; eexists;
      (split; [reflexivity |]); (split; [reflexivity |]);
      (split; [reflexivity |]); reflexivity.
  - intros offset h Hin.
    assert (Hoff : 0 <= offset <= 7).
    { unfold offsetInBounds in Hin. change (maxOffset abc_def) with 7 in Hin.
      apply andb_true_iff in Hin as [H1 H2].
      apply Z.leb_le in H1, H2. lia. }
    assert (Hcases : offset = 0 \/ offset = 1 \/ offset = 2 \/ offset = 3
                     \/ offset = 4 \/ offset = 5 \/ offset = 6 \/ offset = 7) by lia.
    repeat (destruct Hcases as [-> | Hcases]); [.. | subst offset];
      eexists; eexists;
      (split; [reflexivity |]); (split; [reflexivity |]); reflexivity.
Qed.

(** The round trip of the position (1,2) of "abc\ndef". *)
Lemma positionAt_offsetAt_round_trip_witness :
  exists (offset : Z) (back : Position.t) (h' : Alloc),
    AtomShim.offsetAt abc_def (Position.mk 0 1 2) = Ok offset
    /\ AtomShim.positionAt abc_def offset 1%nat = Ok (back, h')
    /\ Position.isEqual back (Position.mk 0 1 2) = true.
Proof.
  destruct positionAt_offsetAt_round_trip as [Hpos _].
  destruct (Hpos (Position.mk 0 1 2) 1%nat) as (offset & back & h' & H1 & _ & H2 & H3).
  - reflexivity.
  - exists offset, back, h'. split; [exact H1 |]. split; [exact H2 | exact H3].
Defined.
End Validate.

Section Notifications.
Local Open Scope Z_scope.
Import AtomShim.

Lemma notify_monotone (e : Atom.Event) (a : Adapter) :
  version (document a) <= version (document (notify e a)).
Proof. destruct e, a as [d []]; simpl; lia. Qed.

Lemma notifyAll_listening (events : list Atom.Event) (a : Adapter) :
  existsb isDidDestroy events = false -> listening a = true ->
  listening (notifyAll events a) = true.
Proof.
  revert a. induction events as [| e events IH]; intros a Hno Ha; [exact Ha |].
  simpl in *. apply orb_false_iff in Hno as [He Hno].
  apply IH; [exact Hno |]. destruct e; try discriminate; simpl; by rewrite ?Ha.
Qed.

Lemma notifyAll_monotone (events : list Atom.Event) (a : Adapter) :
  version (document a) <= version (document (notifyAll events a)).
Proof.
  revert a. induction events as [| e events IH]; intros a; simpl; [lia |].
  pose proof (notify_monotone e a). pose proof (IH (notify e a)).
  unfold notifyAll in *. lia.
Qed.

(** ** The version of a document *)

(** C9. The version of a document is 1 when the adapter is built; every
    change that the host reports to the adapter, whatever it does to the
    contents (an undo is a change), makes the version greater by one than
    it was before that report, for as long as the editor has not reported
    its destruction, which ends the subscription; no report of the host
    makes the version smaller. *)
Theorem version_strictly_increases :
  forall (editor : Atom.TextEditor),
    version (document (new editor)) = 1
    /\ (forall (events : list Atom.Event) (contents : TextBuffer.t),
           existsb isDidDestroy events = false ->
           version (document (notifyAll events (new editor)))
           < version (document (notifyAll (events ++ [Atom.DidChange contents])
                                          (new editor)))
           /\ version (document (notifyAll (events ++ [Atom.DidChange contents])
                                           (new editor)))
              = version (document (notifyAll events (new editor))) + 1)
    /\ (forall (events : list Atom.Event) (e : Atom.Event),
           version (document (notifyAll events (new editor)))
           <= version (document (notifyAll (events ++ [e]) (new editor))))
    /\ (forall (events : list Atom.Event),
           1 <= version (document (notifyAll events (new editor)))).
Proof.
  intros editor. split; [reflexivity |]. split; [| split].
  - intros events contents Hno.
    unfold notifyAll. rewrite fold_left_app. simpl.
    fold (notifyAll events (new editor)).
    rewrite (notifyAll_listening events (new editor) Hno eq_refl). simpl. lia.
  - intros events e. unfold notifyAll. rewrite fold_left_app. simpl.
    apply notify_monotone.
  - intros events. apply (notifyAll_monotone events (new editor)).
Qed.

(** A change, a save, then a change back to the empty text. *)
Lemma version_strictly_increases_witness :
  let editor := Atom.mkEditor (TextBuffer.fromText "a") in
  let undo := TextBuffer.fromText EmptyString in
  version (document (notifyAll [Atom.DidChange (TextBuffer.fromText "ab"); Atom.DidSave]
                       (new editor)))
  < version (document (notifyAll ([Atom.DidChange (TextBuffer.fromText "ab"); Atom.DidSave]
                                    ++ [Atom.DidChange undo])
                         (new editor))).
Proof.
  intros editor undo.
  destruct (version_strictly_increases editor) as (_ & Hchange & _).
  apply (Hchange [Atom.DidChange (TextBuffer.fromText "ab"); Atom.DidSave] undo).
  reflexivity.
Defined.

(** ** save() *)

Lemma afterSave_cons (e : Atom.Event) (events : list Atom.Event) (s : Saving) :
  afterSave (e :: events) s
  = afterSave events (match e with Atom.DidSave => onDidSave s | _ => s end).
Proof. reflexivity. Qed.

Lemma afterSave_unsubscribed (events : list Atom.Event) (p : Promise) :
  afterSave events (mkSaving p false) = mkSaving p false.
Proof.
  induction events as [| e events IH]; [reflexivity |].
  rewrite afterSave_cons. by destruct e.
Qed.

Lemma afterSave_rejected (events : list Atom.Event) (e : Error) (b : bool) :
  promise (afterSave events (mkSaving (Rejected e) b)) = Rejected e.
Proof.
  destruct b; [| by rewrite afterSave_unsubscribed].
  induction events as [| e' events IH]; [reflexivity |].
  rewrite afterSave_cons. destruct e'; try exact IH.
  unfold onDidSave. simpl. by rewrite afterSave_unsubscribed.
Qed.

Lemma afterSave_pending (events : list Atom.Event) :
  promise (afterSave events (mkSaving Pending true))
  = if existsb isDidSave events then Resolved true else Pending.
Proof.
  induction events as [| e events IH]; [reflexivity |].
  rewrite afterSave_cons. destruct e; try exact IH.
  unfold onDidSave. simpl. by rewrite afterSave_unsubscribed.
Qed.

(** C6. The promise of [save()] is resolved with true when the host
    reports the save; when the host reports no save it stays pending, and
    when [editor.save()] throws it is rejected: whatever the host does,
    it is never resolved with false. *)
Theorem save_never_resolves_false :
  forall (host : Atom.SaveRequest) (events : list Atom.Event),
    promise (afterSave events (save host))
    = match host with
      | Atom.SaveReported => Resolved true
      | Atom.SaveThrows e => Rejected e
      | Atom.SaveSilent =>
          if existsb isDidSave events then Resolved true else Pending
      end.
Proof.
  intros [| | e] events; simpl.
  - unfold save, onDidSave. simpl. by rewrite afterSave_unsubscribed.
  - apply afterSave_pending.
  - apply afterSave_rejected.
Qed.
End Notifications.

(** ** WorkspaceEdit *)

Section WorkspaceEditProofs.
Import WorkspaceEdit.

Section WorkspaceEditFacts.
Implicit Types (s : Store) (u : Uri.t) (a : aref) (k : string).

Lemma wf_initial : wf initial.
Proof.
  split; simpl.
  - intros k i H. by rewrite lookup_empty in H.
  - intros i u a H. by rewrite lookup_nil in H.
  - intros i u a H. by rewrite lookup_nil in H.
  - by rewrite map_size_empty.
Qed.

Lemma binding_Some s k a :
  wf s -> binding s k = Some a <->
  exists i u, _index (this s) !! k = Some i /\ _values (this s) !! i = Some (u, a).
Proof.
  intros Hwf. unfold binding. split.
  - destruct (_index (this s) !! k) as [i |] eqn:Hi; [| discriminate].
    destruct (_values (this s) !! i) as [[u a'] |] eqn:Hv; [| discriminate].
    intros [= <-]. eauto.
  - intros (i & u & -> & ->). reflexivity.
Qed.

Lemma binding_index s k :
  wf s -> is_Some (binding s k) <-> is_Some (_index (this s) !! k).
Proof.
  intros Hwf. unfold binding. split.
  - destruct (_index (this s) !! k); [eauto | intros [? [=]]].
  - intros [i Hi]. rewrite Hi.
    destruct (wf_index s Hwf k i Hi) as (u & a & -> & _). eauto.
Qed.

Lemma binding_array s k a :
  wf s -> binding s k = Some a -> a < length (arrays s).
Proof.
  intros Hwf Hb. apply binding_Some in Hb as (i & u & _ & Hv); [| done].
  eapply wf_arrays; eauto.
Qed.

(** [get] and [has] read the binding of the key. *)
Lemma get_binding s u :
  wf s ->
  get u s = Ok (match binding s (Uri.toString u) with
                | Some a => GArray a
                | None => GFalse
                end, s).
Proof.
  intros Hwf. unfold get, binding.
  destruct (_index (this s) !! Uri.toString u) as [i |] eqn:Hi; [| reflexivity].
  destruct (wf_index s Hwf _ i Hi) as (u' & a & -> & _). reflexivity.
Qed.

Lemma has_binding s u :
  wf s -> has u s = Ok (bool_decide (is_Some (binding s (Uri.toString u))), s).
Proof.
  intros Hwf. unfold has. do 2 f_equal.
  apply bool_decide_ext. symmetry. by apply binding_index.
Qed.

Lemma keys_NoDup s : wf s -> NoDup (keys s).
Proof.
  intros Hwf. apply NoDup_alt. intros i j k Hi Hj.
  unfold keys, entries in *. rewrite list_lookup_fmap in Hi, Hj.
  destruct (_values (this s) !! i) as [[u a] |] eqn:Ei; [| discriminate].
  destruct (_values (this s) !! j) as [[u' a'] |] eqn:Ej; [| discriminate].
  simpl in *. injection Hi as <-. injection Hj as Hk.
  apply (wf_values s Hwf) in Ei, Ej. rewrite Hk in Ej. congruence.
Qed.

(** *** set *)

Lemma set_absent s u a :
  wf s -> a < length (arrays s) -> binding s (Uri.toString u) = None ->
  exists s',
    set u a s = Ok (tt, s')
    /\ wf s'
    /\ arrays s' = arrays s
    /\ entries s' = entries s ++ [(u, a)]
    /\ dom (_index (this s')) = {[ Uri.toString u ]} ∪ dom (_index (this s))
    /\ forall k, binding s' k = if decide (k = Uri.toString u) then Some a
                                else binding s k.
Proof.
  intros Hwf Ha Hb.
  assert (Hi : _index (this s) !! Uri.toString u = None).
  { destruct (_index (this s) !! Uri.toString u) eqn:E; [| done].
    assert (is_Some (binding s (Uri.toString u))) as [? ?];
      [apply binding_index; eauto | congruence]. }
  unfold set. rewrite Hi. eexists. split; [reflexivity |].
  rewrite length_app, Nat.add_sub. simpl.
  assert (Hbind : forall k,
    binding (mkStore (arrays s)
               (mk (_values (this s) ++ [(u, a)])
                   (<[Uri.toString u := length (_values (this s))]> (_index (this s))))) k
    = if decide (k = Uri.toString u) then Some a else binding s k).
  { intros k. unfold binding. simpl. destruct (decide (k = Uri.toString u)) as [-> | Hne].
    - rewrite lookup_insert_eq. by rewrite lookup_app_r, Nat.sub_diag.
    - rewrite lookup_insert_ne by done.
      destruct (_index (this s) !! k) as [i |] eqn:Ei; [| done].
      destruct (wf_index s Hwf k i Ei) as (u' & a' & Hv & _).
      by rewrite (lookup_app_l_Some _ _ _ _ Hv), Hv. }
  split; [| split; [done | split; [done | split; [apply dom_insert_L | exact Hbind]]]].
  split; simpl.
  - intros k i. destruct (decide (k = Uri.toString u)) as [-> | Hne].
    + rewrite lookup_insert_eq. intros [= <-]. exists u, a.
      by rewrite lookup_app_r, Nat.sub_diag.
    + rewrite lookup_insert_ne by done. intros Hk.
      destruct (wf_index s Hwf k i Hk) as (u' & a' & Hv & Hu').
      exists u', a'. by rewrite (lookup_app_l_Some _ _ _ _ Hv).
  - intros i u' a' Hv. apply lookup_app_Some in Hv as [Hv | [Hlen Hv]].
    + pose proof (wf_values s Hwf i u' a' Hv) as Hk.
      rewrite lookup_insert_ne; [done |]. intros Heq. rewrite <- Heq in Hk. congruence.
    + destruct (i - length (_values (this s))) as [| n] eqn:En; simpl in Hv;
        [| by rewrite lookup_nil in Hv].
      injection Hv as <- <-. rewrite lookup_insert_eq. f_equal. lia.
  - intros i u' a' Hv. apply lookup_app_Some in Hv as [Hv | [Hlen Hv]].
    + eapply wf_arrays; eauto.
    + destruct (i - length (_values (this s))) as [| n] eqn:En; simpl in Hv;
        [| by rewrite lookup_nil in Hv].
      by injection Hv as <- <-.
  - rewrite length_app. simpl. rewrite map_size_insert_None by done.
    rewrite (wf_size s Hwf). lia.
Qed.

Lemma set_present s u a a0 :
  wf s -> a < length (arrays s) -> binding s (Uri.toString u) = Some a0 ->
  exists s',
    set u a s = Ok (tt, s')
    /\ wf s'
    /\ arrays s' = arrays s
    /\ length (entries s') = length (entries s)
    /\ keys s' = keys s
    /\ _index (this s') = _index (this s)
    /\ forall k, binding s' k = if decide (k = Uri.toString u) then Some a
                                else binding s k.
Proof.
  intros Hwf Ha Hb.
  apply binding_Some in Hb as (i & u0 & Hi & Hv); [| done].
  pose proof (lookup_lt_Some _ _ _ Hv) as Hlt.
  unfold set. rewrite Hi, Hv. eexists. split; [reflexivity |]. simpl.
  assert (Hbind : forall k,
    binding (mkStore (arrays s)
               (mk (<[i := (u0, a)]> (_values (this s))) (_index (this s)))) k
    = if decide (k = Uri.toString u) then Some a else binding s k).
  { intros k. unfold binding. simpl. destruct (decide (k = Uri.toString u)) as [-> | Hne].
    - rewrite Hi. by rewrite list_lookup_insert_eq.
    - destruct (_index (this s) !! k) as [j |] eqn:Ej; [| done].
      rewrite list_lookup_insert_ne; [done |]. intros <-.
      destruct (wf_index s Hwf k i Ej) as (u' & a' & Hv' & Hu').
      destruct (wf_index s Hwf _ i Hi) as (u'' & a'' & Hv'' & Hu'').
      congruence. }
  assert (Hkeys : keys (mkStore (arrays s)
                          (mk (<[i := (u0, a)]> (_values (this s))) (_index (this s))))
                  = keys s).
  { unfold keys, entries. simpl.
    rewrite list_fmap_insert. apply list_insert_id.
    by rewrite list_lookup_fmap, Hv. }
  split; [| split; [done | split; [by unfold entries; simpl; rewrite length_insert
                                  | split; [exact Hkeys | split; [done | exact Hbind]]]]].
  split; simpl.
  - intros k j Hk. destruct (decide (j = i)) as [-> | Hne].
    + rewrite list_lookup_insert_eq by done. exists u0, a. split; [done |].
      destruct (wf_index s Hwf k i Hk) as (u' & a' & Hv' & Hu').
      rewrite Hv in Hv'. injection Hv' as <- <-. exact Hu'.
    + rewrite list_lookup_insert_ne by done. by apply (wf_index s Hwf).
  - intros j u' a' Hj. destruct (decide (j = i)) as [-> | Hne].
    + rewrite list_lookup_insert_eq in Hj by done. injection Hj as <- <-.
      by apply (wf_values s Hwf i u0 a0).
    + rewrite list_lookup_insert_ne in Hj by done. by apply (wf_values s Hwf j u' a').
  - intros j u' a' Hj. destruct (decide (j = i)) as [-> | Hne].
    + rewrite list_lookup_insert_eq in Hj by done. by injection Hj as <- <-.
    + rewrite list_lookup_insert_ne in Hj by done. by apply (wf_arrays s Hwf j u' a').
  - rewrite length_insert. apply (wf_size s Hwf).
Qed.
End WorkspaceEditFacts.

Section WorkspaceEditCalls.
Implicit Types (s : Store) (u : Uri.t) (a : aref) (k : string).

Lemma wf_arrays_change s (arrays' : list (list TextEdit.t)) :
  wf s -> length (arrays s) <= length arrays' -> wf (mkStore arrays' (this s)).
Proof.
  intros Hwf Hlen. split; simpl; try apply Hwf.
  intros i u a Hv. pose proof (wf_arrays s Hwf i u a Hv). lia.
Qed.

Lemma binding_arrays s (arrays' : list (list TextEdit.t)) k :
  binding (mkStore arrays' (this s)) k = binding s k.
Proof. reflexivity. Qed.

Lemma dom_present s k a :
  wf s -> binding s k = Some a ->
  dom (_index (this s)) = {[ k ]} ∪ dom (_index (this s)).
Proof.
  intros Hwf Hb. assert (Hk : k ∈ dom (_index (this s))).
  { apply elem_of_dom, binding_index; [done | by rewrite Hb]. }
  apply set_eq. intros x. rewrite elem_of_union, elem_of_singleton.
  split; [auto | by intros [-> | ?]].
Qed.

Lemma replace_present s u (range : Range.t) (newText : string) a :
  wf s -> binding s (Uri.toString u) = Some a ->
  exists elements,
    arrays s !! a = Some elements
    /\ replace u range newText s
       = Ok (tt, mkStore (<[a := elements ++ [TextEdit.mk range newText]]> (arrays s))
                   (this s)).
Proof.
  intros Hwf Hb.
  destruct (lookup_lt_is_Some_2 (arrays s) a (binding_array s _ a Hwf Hb))
    as [elements He].
  exists elements. split; [exact He |].
  unfold replace, bind, lift. simpl. rewrite (get_binding s u Hwf), Hb.
  unfold push. by rewrite He.
Qed.

Lemma replace_absent s u (range : Range.t) (newText : string) :
  wf s -> binding s (Uri.toString u) = None ->
  replace u range newText s
  = set u (length (arrays s))
      (mkStore (arrays s ++ [[TextEdit.mk range newText]]) (this s)).
Proof.
  intros Hwf Hb. unfold replace, bind, lift. simpl.
  by rewrite (get_binding s u Hwf), Hb.
Qed.

(** What one call does to a well-formed WorkspaceEdit. *)
Lemma replace_spec s u (range : Range.t) (newText : string) :
  wf s ->
  exists s',
    replace u range newText s = Ok (tt, s')
    /\ wf s'
    /\ dom (_index (this s')) = {[ Uri.toString u ]} ∪ dom (_index (this s))
    /\ (forall k, k <> Uri.toString u -> binding s' k = binding s k)
    /\ match binding s (Uri.toString u) with
       | Some a =>
           exists elements,
             arrays s !! a = Some elements
             /\ binding s' (Uri.toString u) = Some a
             /\ arrays s' !! a = Some (elements ++ [TextEdit.mk range newText])
             /\ entries s' = entries s
       | None =>
           binding s' (Uri.toString u) = Some (length (arrays s))
           /\ arrays s' !! length (arrays s) = Some [TextEdit.mk range newText]
           /\ entries s' = entries s ++ [(u, length (arrays s))]
       end.
Proof.
  intros Hwf. destruct (binding s (Uri.toString u)) as [a |] eqn:Hb.
  - destruct (replace_present s u range newText a Hwf Hb) as (elements & He & ->).
    eexists. split; [reflexivity |].
    split; [apply wf_arrays_change; [done | by rewrite length_insert] |].
    split; [by apply (dom_present s _ a) |].
    split; [done |].
    exists elements. split; [done |]. split; [done |].
    split; [| done]. simpl. apply list_lookup_insert_eq.
    by apply lookup_lt_Some in He.
  - rewrite (replace_absent s u range newText Hwf Hb).
    destruct (set_absent (mkStore (arrays s ++ [[TextEdit.mk range newText]]) (this s))
                u (length (arrays s)))
      as (s' & Hset & Hwf' & Harr & Hent & Hdom & Hbind).
    { apply wf_arrays_change; [done |]. rewrite length_app. simpl. lia. }
    { simpl. rewrite length_app. simpl. lia. }
    { by rewrite binding_arrays. }
    exists s'. split; [exact Hset |]. split; [exact Hwf' |].
    split; [exact Hdom |].
    split; [intros k Hk; rewrite Hbind; by destruct (decide _) |].
    split; [rewrite Hbind; by destruct (decide _) |].
    split; [| exact Hent].
    rewrite Harr. simpl. by rewrite lookup_app_r, Nat.sub_diag.
Qed.

Lemma set_spec s u a :
  wf s -> a < length (arrays s) ->
  exists s',
    set u a s = Ok (tt, s')
    /\ wf s'
    /\ arrays s' = arrays s
    /\ dom (_index (this s')) = {[ Uri.toString u ]} ∪ dom (_index (this s))
    /\ forall k, binding s' k = if decide (k = Uri.toString u) then Some a
                                else binding s k.
Proof.
  intros Hwf Ha. destruct (binding s (Uri.toString u)) as [a0 |] eqn:Hb.
  - destruct (set_present s u a a0 Hwf Ha Hb) as (s' & H1 & H2 & H3 & H4 & _ & H5 & H6).
    exists s'. split; [done |]. split; [done |]. split; [done |].
    split; [| done]. rewrite H5. by apply (dom_present s _ a0).
  - destruct (set_absent s u a Hwf Ha Hb) as (s' & H1 & H2 & H3 & H4 & H5 & H6).
    exists s'. split; [done |]. split; [done |]. split; [done |].
    split; [exact H5 | exact H6].
Qed.

Lemma replace_grows s u (range : Range.t) (newText : string) s' :
  wf s -> replace u range newText s = Ok (tt, s') ->
  length (arrays s) <= length (arrays s').
Proof.
  intros Hwf. destruct (binding s (Uri.toString u)) as [a |] eqn:Hb.
  - destruct (replace_present s u range newText a Hwf Hb) as (elements & _ & Hr).
    rewrite Hr. intros [= <-]. simpl. by rewrite length_insert.
  - rewrite (replace_absent s u range newText Hwf Hb).
    unfold set. simpl.
    destruct (_index (this s) !! Uri.toString u) as [i |];
      [destruct (_values (this s) !! i); [| discriminate] |];
      intros [= <-]; simpl; rewrite length_app; lia.
Qed.

Lemma replace_call s u (range : Range.t) (newText : string) s' :
  wf s -> replace u range newText s = Ok (tt, s') ->
  wf s'
  /\ length (arrays s) <= length (arrays s')
  /\ dom (_index (this s')) = {[ Uri.toString u ]} ∪ dom (_index (this s))
  /\ forall k, Some (Uri.toString u) <> Some k -> binding s' k = binding s k.
Proof.
  intros Hwf Hr. pose proof (replace_grows s u range newText s' Hwf Hr) as Hlen.
  destruct (replace_spec s u range newText Hwf)
    as (s1 & Hr1 & Hwf' & Hdom & Hframe & _).
  rewrite Hr in Hr1. injection Hr1 as <-.
  split; [done |]. split; [done |]. split; [done |].
  intros k Hk. apply Hframe. congruence.
Qed.

Lemma call_spec (c : Call) s s' :
  wf s -> call c s = Ok (tt, s') ->
  wf s'
  /\ length (arrays s) <= length (arrays s')
  /\ dom (_index (this s'))
     = match key c with Some k => {[ k ]} | None => ∅ end ∪ dom (_index (this s))
  /\ forall k, key c <> Some k -> binding s' k = binding s k.
Proof.
  intros Hwf. destruct c as [elements | u a | u range newText | u p newText | u range];
    simpl.
  - unfold bind, newArray, ret. intros [= <-].
    split; [apply wf_arrays_change; [done | rewrite length_app; simpl; lia] |].
    split; [simpl; rewrite length_app; lia |].
    split; [simpl; by rewrite (left_id_L ∅ (∪)) | done].
  - destruct (decide (a < length (arrays s))) as [Ha |]; [| discriminate].
    destruct (set_spec s u a Hwf Ha) as (s1 & -> & Hwf' & Harr & Hdom & Hbind).
    intros [= <-]. split; [done |]. split; [by rewrite Harr |]. split; [done |].
    intros k Hk. rewrite Hbind. destruct (decide _); [congruence | done].
  - apply (replace_call s u range newText s' Hwf).
  - apply (replace_call s u (Range.ordered p p) newText s' Hwf).
  - apply (replace_call s u range EmptyString s' Hwf).
Qed.

Lemma run_spec (program : list Call) s s' :
  wf s -> run program s = Ok (tt, s') ->
  wf s' /\ dom (_index (this s')) = touched program ∪ dom (_index (this s)).
Proof.
  revert s. induction program as [| c program IH]; intros s Hwf; simpl.
  - intros [= <-]. split; [done | by rewrite (left_id_L ∅ (∪))].
  - unfold bind. destruct (call c s) as [[[] s1] |] eqn:Hc; [| discriminate].
    destruct (call_spec c s s1 Hwf Hc) as (Hwf1 & _ & Hdom1 & _).
    intros Hrun. destruct (IH s1 Hwf1 Hrun) as (Hwf' & Hdom').
    split; [done |]. rewrite Hdom', Hdom1.
    destruct (key c) as [k |].
    + by rewrite (comm_L (∪) {[ k ]} (touched program)), (assoc_L (∪)).
    + by rewrite (left_id_L ∅ (∪)).
Qed.

Lemma reachable_wf (program : list Call) s :
  run program initial = Ok (tt, s) ->
  wf s /\ dom (_index (this s)) = touched program.
Proof.
  intros Hrun. destruct (run_spec program initial s wf_initial Hrun) as [Hwf Hdom].
  split; [done |]. rewrite Hdom. simpl.
  by rewrite dom_empty_L, (right_id_L ∅ (∪)).
Qed.

Lemma size_touched (program : list Call) s :
  run program initial = Ok (tt, s) -> size s = base.size (touched program).
Proof.
  intros Hrun. destruct (reachable_wf program s Hrun) as [Hwf Hdom].
  unfold size. rewrite (wf_size s Hwf), <- Hdom. symmetry. apply size_dom.
Qed.
End WorkspaceEditCalls.

Section WorkspaceEditProperties.
Implicit Types (s : Store) (u : Uri.t) (a : aref) (k : string).

Lemma single_entry s k a :
  wf s -> binding s k = Some a ->
  exists i, keys s !! i = Some k /\ forall j, keys s !! j = Some k -> j = i.
Proof.
  intros Hwf Hb. apply binding_Some in Hb as (i & u & Hi & Hv); [| done].
  destruct (wf_index s Hwf k i Hi) as (u' & a' & Hv' & Hu').
  assert (Hk : keys s !! i = Some k).
  { unfold keys, entries. by rewrite list_lookup_fmap, Hv'; simpl; rewrite Hu'. }
  exists i. split; [exact Hk |].
  intros j Hj. by apply (proj1 (NoDup_alt (keys s)) (keys_NoDup s Hwf) j i k).
Qed.

Lemma get_result s u (r : GetResult) :
  wf s ->
  get u s = Ok (r, s) <->
  r = match binding s (Uri.toString u) with Some a => GArray a | None => GFalse end.
Proof.
  intros Hwf. rewrite (get_binding s u Hwf). split; [by intros [= <-] | by intros ->].
Qed.

(** C8. In every WorkspaceEdit that a program has built: no two entries
    have the same key; the size is the number of the distinct keys that the
    program has stored under; [set] on a key that is present puts the
    given array in the place of the one that was there, and leaves the
    number and the keys of the entries and the contents of every array as
    they were; [replace] adds the new TextEdit at the end of the array of
    the key when there is one, and otherwise adds an entry with a new
    array that holds this TextEdit alone; [insert] and [delete] are calls
    of [replace]; and two calls of [replace] for one resource leave one
    entry for it, whose array ends with the two TextEdits in the order of
    the calls. *)
Theorem WorkspaceEdit_one_sequence_per_resource :
  forall (program : list Call) (s : Store),
    run program initial = Ok (tt, s) ->
    NoDup (keys s)
    /\ size s = base.size (touched program)
    /\ (forall u a a0,
           a < length (arrays s) -> get u s = Ok (GArray a0, s) ->
           exists s',
             set u a s = Ok (tt, s')
             /\ get u s' = Ok (GArray a, s')
             /\ size s' = size s
             /\ keys s' = keys s
             /\ arrays s' = arrays s)
    /\ (forall u (range : Range.t) (newText : string),
           exists s',
             replace u range newText s = Ok (tt, s')
             /\ ((exists a elements,
                     get u s = Ok (GArray a, s)
                     /\ arrays s !! a = Some elements
                     /\ get u s' = Ok (GArray a, s')
                     /\ arrays s' !! a = Some (elements ++ [TextEdit.mk range newText])
                     /\ size s' = size s)
                 \/ (get u s = Ok (GFalse, s)
                     /\ get u s' = Ok (GArray (length (arrays s)), s')
                     /\ arrays s' !! length (arrays s)
                        = Some [TextEdit.mk range newText]
                     /\ size s' = S (size s))))
    /\ (forall u (position : Position.t) (newText : string),
           insert u position newText s
           = replace u (Range.ordered position position) newText s)
    /\ (forall u (range : Range.t), delete u range s = replace u range EmptyString s)
    /\ (forall u (r1 r2 : Range.t) (t1 t2 : string),
           exists s' a elements,
             run [CallReplace u r1 t1; CallReplace u r2 t2] s = Ok (tt, s')
             /\ get u s' = Ok (GArray a, s')
             /\ arrays s' !! a
                = Some (elements ++ [TextEdit.mk r1 t1; TextEdit.mk r2 t2])
             /\ (get u s = Ok (GFalse, s) -> elements = [])
             /\ exists i,
                 keys s' !! i = Some (Uri.toString u)
                 /\ forall j, keys s' !! j = Some (Uri.toString u) -> j = i).
Proof.
  intros program s Hrun.
  destruct (reachable_wf program s Hrun) as [Hwf Hdom].
  split; [by apply keys_NoDup |].
  split; [by apply size_touched |].
  split; [| split; [| split; [done | split; [done |]]]].
  - intros u a a0 Ha Hget.
    apply get_result in Hget; [| done].
    destruct (binding s (Uri.toString u)) as [b |] eqn:Hb; [| discriminate].
    destruct (set_present s u a b Hwf Ha Hb)
      as (s' & Hset & Hwf' & Harr & Hlen & Hkeys & _ & Hbind).
    exists s'. split; [exact Hset |].
    split; [apply get_result; [done |]; rewrite Hbind; by destruct (decide _) |].
    split; [exact Hlen |]. split; [exact Hkeys | exact Harr].
  - intros u range newText.
    destruct (replace_spec s u range newText Hwf)
      as (s' & Hr & Hwf' & _ & _ & Hcase).
    exists s'. split; [exact Hr |].
    destruct (binding s (Uri.toString u)) as [a |] eqn:Hb.
    + left. destruct Hcase as (elements & He & Hb' & He' & Hent).
      exists a, elements.
      split; [apply get_result; [done |]; by rewrite Hb |].
      split; [exact He |].
      split; [apply get_result; [done |]; by rewrite Hb' |].
      split; [exact He' |]. unfold size. fold (entries s'). by rewrite Hent.
    + right. destruct Hcase as (Hb' & He' & Hent).
      split; [apply get_result; [done |]; by rewrite Hb |].
      split; [apply get_result; [done |]; by rewrite Hb' |].
      split; [exact He' |]. unfold size. fold (entries s'). rewrite Hent.
      rewrite length_app. unfold entries. simpl. lia.
  - intros u r1 r2 t1 t2.
    destruct (replace_spec s u r1 t1 Hwf) as (s1 & Hr1 & Hwf1 & _ & _ & Hcase1).
    destruct (replace_spec s1 u r2 t2 Hwf1) as (s2 & Hr2 & Hwf2 & _ & _ & Hcase2).
    assert (Hrun2 : run [CallReplace u r1 t1; CallReplace u r2 t2] s = Ok (tt, s2)).
    { simpl. unfold bind. rewrite Hr1. simpl. by rewrite Hr2. }
    destruct (binding s (Uri.toString u)) as [a |] eqn:Hb.
    + destruct Hcase1 as (elements & He & Hb1 & He1 & _).
      rewrite Hb1 in Hcase2. destruct Hcase2 as (elements1 & He1' & Hb2 & He2 & _).
      rewrite He1 in He1'. injection He1' as <-.
      exists s2, a, elements. split; [exact Hrun2 |].
      split; [apply get_result; [done |]; by rewrite Hb2 |].
      split; [by rewrite He2, <- app_assoc |].
      split; [intros Hget; apply get_result in Hget; [| done];
              rewrite Hb in Hget; discriminate |].
      by apply (single_entry s2 _ a).
    + destruct Hcase1 as (Hb1 & He1 & _).
      rewrite Hb1 in Hcase2. destruct Hcase2 as (elements1 & He1' & Hb2 & He2 & _).
      rewrite He1 in He1'. injection He1' as <-.
      exists s2, (length (arrays s)), []. split; [exact Hrun2 |].
      split; [apply get_result; [done |]; by rewrite Hb2 |].
      split; [exact He2 |]. split; [done |].
      by apply (single_entry s2 _ (length (arrays s))).
Qed.

(** C10. In every WorkspaceEdit that a program has built: for a Uri whose
    key the program has not stored under, [get] returns the boolean false
    and [has] returns false; for a Uri whose key it has stored under, [has]
    returns true and [get] returns the array of the entry of that key.
    That array is the stored one: after [set(u, a)], [get] returns a for
    every Uri with the key of u, and a call for another key changes
    neither what [get] nor what [has] returns for u. *)
Theorem WorkspaceEdit_get_and_has :
  forall (program : list Call) (s : Store) (u : Uri.t),
    run program initial = Ok (tt, s) ->
    (Uri.toString u ∉ touched program ->
     get u s = Ok (GFalse, s) /\ has u s = Ok (false, s))
    /\ (Uri.toString u ∈ touched program ->
        has u s = Ok (true, s)
        /\ exists a elements i u',
            get u s = Ok (GArray a, s)
            /\ arrays s !! a = Some elements
            /\ entries s !! i = Some (u', a)
            /\ Uri.toString u' = Uri.toString u)
    /\ (forall a,
           a < length (arrays s) ->
           exists s',
             set u a s = Ok (tt, s')
             /\ forall u', Uri.toString u' = Uri.toString u ->
                           get u' s' = Ok (GArray a, s')
                           /\ has u' s' = Ok (true, s'))
    /\ (forall (c : Call) (s' : Store) (r : GetResult) (b : bool),
           key c <> Some (Uri.toString u) -> call c s = Ok (tt, s') ->
           get u s = Ok (r, s) -> has u s = Ok (b, s) ->
           get u s' = Ok (r, s') /\ has u s' = Ok (b, s')).
Proof.
  intros program s u Hrun.
  destruct (reachable_wf program s Hrun) as [Hwf Hdom].
  split; [| split; [| split]].
  - intros Hnot. rewrite <- Hdom in Hnot.
    assert (Hb : binding s (Uri.toString u) = None).
    { destruct (binding s (Uri.toString u)) eqn:Hb; [| done].
      exfalso. apply Hnot, elem_of_dom, binding_index; [done | by rewrite Hb]. }
    rewrite get_binding, has_binding, Hb by done. split; reflexivity.
  - intros Hin. rewrite <- Hdom in Hin.
    apply elem_of_dom, binding_index in Hin as [a Hb]; [| done].
    rewrite get_binding, has_binding, Hb by done.
    split; [reflexivity |].
    pose proof (binding_array s _ a Hwf Hb) as Ha.
    destruct (lookup_lt_is_Some_2 (arrays s) a Ha) as [elements He].
    apply binding_Some in Hb as (i & u' & Hi & Hv); [| done].
    destruct (wf_index s Hwf _ i Hi) as (u'' & a'' & Hv'' & Hu'').
    exists a, elements, i, u'. split; [done |]. split; [done |].
    split; [done |]. congruence.
  - intros a Ha.
    destruct (set_spec s u a Hwf Ha) as (s' & Hset & Hwf' & _ & _ & Hbind).
    exists s'. split; [exact Hset |]. intros u' Hu'.
    rewrite get_binding, has_binding, Hbind, Hu' by done.
    rewrite decide_True by done. split; reflexivity.
  - intros c s' r b Hkey Hcall Hget Hhas.
    destruct (call_spec c s s' Hwf Hcall) as (Hwf' & _ & _ & Hframe).
    rewrite get_binding, has_binding in * by done.
    rewrite (Hframe (Uri.toString u) Hkey).
    injection Hget as <-. injection Hhas as <-. done.
Qed.
End WorkspaceEditProperties.

(** The WorkspaceEdit after one call of [replace]. *)
Lemma WorkspaceEdit_one_sequence_per_resource_witness :
  let s := mkStore [[TextEdit.mk someRange "x"]]
             (mk [(someUri, 0)] {[ "file:///a.ts" := 0 ]}) in
  NoDup (keys s) /\ size s = 1.
Proof.
  intros s.
  destruct (WorkspaceEdit_one_sequence_per_resource
              [CallReplace someUri someRange "x"] s) as (Hkeys & Hsize & _).
  - vm_compute. reflexivity.
  - split; [exact Hkeys |]. rewrite Hsize. reflexivity.
Defined.

(** [has] and [get] after one call of [replace]. *)
Lemma WorkspaceEdit_get_and_has_witness :
  let s := mkStore [[TextEdit.mk someRange "x"]]
             (mk [(someUri, 0%nat)] {[ "file:///a.ts"%string := 0%nat ]}) in
  has someUri s = Ok (true, s)
  /\ get (Uri.mk 7 "file:///b.ts") s = Ok (GFalse, s).
Proof.
  intros s.
  assert (Hrun : run [CallReplace someUri someRange "x"]
                   initial = Ok (tt, s)) by (vm_compute; reflexivity).
  split.
  - destruct (WorkspaceEdit_get_and_has _ s someUri Hrun) as (_ & Hin & _).
    apply Hin. simpl. apply elem_of_union_l, elem_of_singleton. reflexivity.
  - destruct (WorkspaceEdit_get_and_has _ s (Uri.mk 7 "file:///b.ts") Hrun) as (Hout & _).
    apply Hout. simpl. rewrite elem_of_union, elem_of_singleton.
    intros [Heq | Hin]; [discriminate | by apply not_elem_of_empty in Hin].
Defined.

End WorkspaceEditProofs.

(** * Further properties *)

(** ** Comparisons of positions *)

Section Comparisons.
Local Open Scope Z_scope.
Implicit Types p q r : Position.t.

(** X1. Of two positions exactly one of [isBefore], [isEqual] and
    [isAfter] holds, and the other comparisons say the same: [isAfter] is
    [isBefore] with the arguments exchanged, [isBeforeOrEqual] is
    [isBefore] or [isEqual], and [isAfterOrEqual] is [isAfter] or
    [isEqual]. *)
Theorem comparisons_agree :
  forall p q,
    ((Position.isBefore p q = true /\ Position.isEqual p q = false
      /\ Position.isAfter p q = false)
     \/ (Position.isBefore p q = false /\ Position.isEqual p q = true
         /\ Position.isAfter p q = false)
     \/ (Position.isBefore p q = false /\ Position.isEqual p q = false
         /\ Position.isAfter p q = true))
    /\ Position.isAfter p q = Position.isBefore q p
    /\ Position.isBeforeOrEqual p q = Position.isBefore p q || Position.isEqual p q
    /\ Position.isAfterOrEqual p q = Position.isAfter p q || Position.isEqual p q
    /\ Position.isEqual p q = Position.isEqual q p.
Proof.
  intros p q.
  destruct (Position.isBefore p q) eqn:E1, (Position.isEqual p q) eqn:E2,
    (Position.isAfter p q) eqn:E3, (Position.isBefore q p) eqn:E4,
    (Position.isBeforeOrEqual p q) eqn:E5, (Position.isAfterOrEqual p q) eqn:E6,
    (Position.isEqual q p) eqn:E7;
    try (exfalso; clear E6; order);
    try (exfalso; unfold Position.isAfterOrEqual in E6; rewrite E1 in E6; discriminate);
    simpl; tauto.
Qed.

(** X2. [compareTo] returns -1, 0 or 1: -1 exactly when the receiver is
    before the argument, 0 exactly when the two are equal, 1 exactly when
    it is after; exchanging the two positions changes the sign. *)
Theorem compareTo_agrees :
  forall p q,
    (Position.compareTo p q = -1 <-> Position.isBefore p q = true)
    /\ (Position.compareTo p q = 0 <-> Position.isEqual p q = true)
    /\ (Position.compareTo p q = 1 <-> Position.isAfter p q = true)
    /\ (Position.compareTo p q = -1 \/ Position.compareTo p q = 0
        \/ Position.compareTo p q = 1)
    /\ Position.compareTo q p = - Position.compareTo p q.
Proof.
  intros p q.
  rewrite isBefore_true, isEqual_true, isAfter_true, isBeforeOrEqual_false.
  unfold Position.compareTo, Position.line.
  repeat match goal with
    | |- context [(?a <? ?b)] => destruct (Z.ltb_spec a b)
    | |- context [(?a >? ?b)] => destruct (Z.gtb_spec a b)
    end; try lia; repeat split; try lia; intros; lia.
Qed.

(** X3. [isBefore] is a strict order: no position is before itself, and
    a position before a second one that is before or equal to a third one
    is before the third; [isEqual] compares the coordinates, not the
    objects. *)
Theorem isBefore_strict_order :
  forall p q r,
    Position.isBefore p p = false
    /\ (Position.isBefore p q = true -> Position.isBefore q p = false)
    /\ (Position.isBefore p q = true -> Position.isBeforeOrEqual q r = true ->
        Position.isBefore p r = true)
    /\ (Position.isBeforeOrEqual p q = true -> Position.isBefore q r = true ->
        Position.isBefore p r = true)
    /\ (Position.isBeforeOrEqual p q = true -> Position.isBeforeOrEqual q p = true ->
        Position.isEqual p q = true)
    /\ (Position.isEqual p q = true <->
        Position.line p = Position.line q
        /\ Position.character p = Position.character q).
Proof.
  intros p q r.
  split; [order |]. split; [intros; order |]. split; [intros; order |].
  split; [intros; order |]. split; [intros; order |].
  apply isEqual_true.
Qed.

Lemma isBefore_strict_order_witness :
  Position.isBefore (Position.mk 0 1 2) (Position.mk 1 3 0) = true.
Proof.
  destruct (isBefore_strict_order (Position.mk 0 1 2) (Position.mk 1 1 9)
              (Position.mk 1 3 0)) as (_ & _ & Htrans & _).
  apply Htrans; reflexivity.
Defined.

End Comparisons.

Section Movements.
Local Open Scope Z_scope.
Implicit Types p q r : Position.t.

(** X4. On a position with no negative coordinate, [translate] returns
    the receiver itself when both deltas are zero or absent; otherwise it
    returns a new position whose coordinates are the sums, and it throws
    exactly when a sum is negative. Two translations in a row arrive where
    the translation by the sums of the deltas arrives. *)
Theorem translate_adds :
  forall (this : Position.t) (lineDelta characterDelta : option Z) (h : Alloc),
    valid this ->
    let dl := default 0 lineDelta in
    let dc := default 0 characterDelta in
    (dl = 0 -> dc = 0 -> Position.translate this lineDelta characterDelta h = Ok (this, h))
    /\ (0 <= Position.line this + dl -> 0 <= Position.character this + dc ->
        exists q h',
          Position.translate this lineDelta characterDelta h = Ok (q, h')
          /\ Position.line q = Position.line this + dl
          /\ Position.character q = Position.character this + dc
          /\ valid q
          /\ forall (lineDelta' characterDelta' : Z) (r : Position.t) (h'' : Alloc),
              Position.translate q (Some lineDelta') (Some characterDelta') h'
              = Ok (r, h'') ->
              exists r' k,
                Position.translate this (Some (dl + lineDelta'))
                  (Some (dc + characterDelta')) h = Ok (r', k)
                /\ Position.isEqual r' r = true)
    /\ (Position.line this + dl < 0 \/ Position.character this + dc < 0 ->
        exists e, Position.translate this lineDelta characterDelta h = Throw e).
Proof.
  intros this lineDelta characterDelta h [Hl Hc] dl dc.
  assert (Hrun : forall (p : Position.t) (a b : Z) (k : Alloc),
             Position.translate p (Some a) (Some b) k
             = if (a =? 0) && (b =? 0) then Ok (p, k)
               else Position.new (Position.line p + a) (Position.character p + b) k).
  { intros p a b k. unfold Position.translate. simpl.
    by destruct ((a =? 0) && (b =? 0)). }
  assert (Hthis : Position.translate this lineDelta characterDelta h
                  = Position.translate this (Some dl) (Some dc) h) by reflexivity.
  rewrite Hthis, Hrun. clear Hthis.
  split; [intros -> ->; reflexivity |]. split.
  - intros Hl' Hc'.
    assert (Hq : exists q h',
               (if (dl =? 0) && (dc =? 0) then Ok (this, h)
                else Position.new (Position.line this + dl)
                       (Position.character this + dc) h) = Ok (q, h')
               /\ Position.line q = Position.line this + dl
               /\ Position.character q = Position.character this + dc).
    { destruct (Z.eqb_spec dl 0) as [-> |], (Z.eqb_spec dc 0) as [-> |]; simpl;
        try (rewrite new_nonneg by assumption; eauto);
        exists this, h; repeat split; lia. }
    destruct Hq as (q & h' & -> & Hql & Hqc).
    exists q, h'. split; [reflexivity |]. split; [exact Hql |]. split; [exact Hqc |].
    split; [split; lia |].
    intros a b r h''. rewrite !Hrun. intros Hr.
    assert (Hfields : Position.line r = Position.line q + a
                      /\ Position.character r = Position.character q + b).
    { destruct ((a =? 0) && (b =? 0)) eqn:E.
      - apply andb_true_iff in E as [Ea Eb]. apply Z.eqb_eq in Ea, Eb.
        injection Hr as <- <-. lia.
      - unfold Position.new in Hr.
        destruct (_ <? 0); [discriminate |]. destruct (_ <? 0); [discriminate |].
        injection Hr as <- <-. split; reflexivity. }
    destruct Hfields as [Hrl Hrc].
    assert (Hvalid : 0 <= Position.line r /\ 0 <= Position.character r).
    { destruct ((a =? 0) && (b =? 0)) eqn:E.
      - injection Hr as <- <-. lia.
      - unfold Position.new in Hr.
        destruct (Z.ltb_spec (Position.line q + a) 0); [discriminate |].
        destruct (Z.ltb_spec (Position.character q + b) 0); [discriminate |]. lia. }
    destruct ((dl + a =? 0) && (dc + b =? 0)) eqn:E.
    + apply andb_true_iff in E as [Ea Eb]. apply Z.eqb_eq in Ea, Eb.
      exists this, h. split; [reflexivity |]. apply isEqual_true.
      unfold Position.line, Position.character in *. lia.
    + rewrite new_nonneg by lia. eexists; eexists. split; [reflexivity |].
      apply isEqual_true. unfold Position.line, Position.character in *. simpl. lia.
  - intros Hneg.
    assert (E : (dl =? 0) && (dc =? 0) = false).
    { apply andb_false_iff. rewrite !Z.eqb_neq. lia. }
    rewrite E. unfold Position.new.
    destruct (Z.ltb_spec (Position.line this + dl) 0); [eauto |].
    destruct (Z.ltb_spec (Position.character this + dc) 0); [eauto | lia].
Qed.

Lemma translate_adds_witness :
  exists q h',
    Position.translate (Position.mk 0 3 4) (Some (-1)) None 1%nat = Ok (q, h')
    /\ Position.line q = 2 /\ Position.character q = 4.
Proof.
  destruct (translate_adds (Position.mk 0 3 4) (Some (-1)) None 1%nat)
    as (_ & Hmove & _).
  - split; simpl; lia.
  - destruct Hmove as (q & h' & Hrun & Hl & Hc & _); [simpl; lia | simpl; lia |].
    exists q, h'. split; [exact Hrun |]. split; [exact Hl | exact Hc].
Defined.

(** The loops of [Min] and [Max]. *)
Lemma fold_min (l : list Position.t) (r : Position.t) :
  let m := fold_left (fun result p => if Position.isBefore p result then p else result)
             l r in
  (m = r \/ m ∈ l)
  /\ Position.isBeforeOrEqual m r = true
  /\ forall p, p ∈ l -> Position.isBeforeOrEqual m p = true.
Proof.
  revert r. induction l as [| x l IH]; intros r; simpl.
  - split; [auto |]. split; [order |]. intros p Hp. by apply elem_of_nil in Hp.
  - destruct (IH (if Position.isBefore x r then x else r)) as (Hin & Hle & Hall).
    split; [| split].
    + destruct Hin as [-> | Hin]; [| right; by apply elem_of_cons; right].
      destruct (Position.isBefore x r); [right; apply elem_of_cons; auto | auto].
    + destruct (Position.isBefore x r) eqn:E; [order | exact Hle].
    + intros p Hp. apply elem_of_cons in Hp as [-> | Hp]; [| by apply Hall].
      destruct (Position.isBefore x r) eqn:E; [exact Hle | order].
Qed.

Lemma fold_max (l : list Position.t) (r : Position.t) :
  let m := fold_left (fun result p => if Position.isAfter p result then p else result)
             l r in
  (m = r \/ m ∈ l)
  /\ Position.isBeforeOrEqual r m = true
  /\ forall p, p ∈ l -> Position.isBeforeOrEqual p m = true.
Proof.
  revert r. induction l as [| x l IH]; intros r; simpl.
  - split; [auto |]. split; [order |]. intros p Hp. by apply elem_of_nil in Hp.
  - destruct (IH (if Position.isAfter x r then x else r)) as (Hin & Hle & Hall).
    split; [| split].
    + destruct Hin as [-> | Hin]; [| right; by apply elem_of_cons; right].
      destruct (Position.isAfter x r); [right; apply elem_of_cons; auto | auto].
    + destruct (Position.isAfter x r) eqn:E; [order | exact Hle].
    + intros p Hp. apply elem_of_cons in Hp as [-> | Hp]; [| by apply Hall].
      destruct (Position.isAfter x r) eqn:E; [exact Hle | order].
Qed.

(** X5. [Position.Min] and [Position.Max] of no position are [undefined];
    of one or more positions, [Min] is one of them and is before or equal
    to each of them, and [Max] is one of them and each of them is before
    or equal to it. *)
Theorem Min_Max_bound :
  forall positions : list Position.t,
    match Position.Min positions with
    | None => positions = []
    | Some m =>
        m ∈ positions
        /\ forall p, p ∈ positions -> Position.isBeforeOrEqual m p = true
    end
    /\ match Position.Max positions with
       | None => positions = []
       | Some m =>
           m ∈ positions
           /\ forall p, p ∈ positions -> Position.isBeforeOrEqual p m = true
       end.
Proof.
  intros positions. unfold Position.Min, Position.Max.
  destruct (last positions) as [r |] eqn:Hlast.
  - apply last_Some in Hlast as [l ->]. rewrite removelast_last.
    destruct (fold_min l r) as (Hin & Hle & Hall).
    destruct (fold_max l r) as (Hin' & Hle' & Hall').
    split; (split; [| intros p Hp; apply elem_of_app in Hp as [Hp | Hp]]).
    + apply elem_of_app. destruct Hin as [-> | Hin]; [right; apply list_elem_of_singleton |]; auto.
    + by apply Hall.
    + apply list_elem_of_singleton in Hp as ->. exact Hle.
    + apply elem_of_app. destruct Hin' as [-> | Hin']; [right; apply list_elem_of_singleton |]; auto.
    + by apply Hall'.
    + apply list_elem_of_singleton in Hp as ->. exact Hle'.
  - apply last_None in Hlast. auto.
Qed.

End Movements.

(** ** Containment, union and intersection *)

Section Containment.
Local Open Scope Z_scope.
Implicit Types (a b r w : Range.t) (p q : Position.t).

Lemma containsPosition_true r p :
  Range.containsPosition r p = true <->
  Position.isBeforeOrEqual (Range._start r) p = true
  /\ Position.isBeforeOrEqual p (Range._end r) = true.
Proof.
  unfold Range.containsPosition.
  destruct (Position.isBefore p (Range._start r)) eqn:E1;
    [split; [discriminate | intros []; order] |].
  destruct (Position.isBefore (Range._end r) p) eqn:E2;
    [split; [discriminate | intros []; order] |].
  split; [intros _; split; order | reflexivity].
Qed.

Lemma containsRange_true a b :
  Range.contains a (inr b) = true <->
  Range.containsPosition a (Range._start b) = true
  /\ Range.containsPosition a (Range._end b) = true.
Proof. simpl. apply andb_true_iff. Qed.

(** Turns the containments of the context and of the goal into
    comparisons of positions. *)
Ltac contain :=
  unfold wellOrdered, Range.start, Range.end_ in *;
  repeat match goal with
    | H : Range.contains _ (inr _) = true |- _ => apply containsRange_true in H as [? ?]
    | H : Range.contains _ (inl _) = true |- _ => cbn [Range.contains] in H
    | H : Range.containsPosition _ _ = true |- _ =>
        apply containsPosition_true in H as [? ?]
    end;
  repeat match goal with
    | |- Range.contains _ (inr _) = true => apply containsRange_true; split
    | |- Range.contains _ (inl _) = true => cbn [Range.contains]
    | |- Range.containsPosition _ _ = true => apply containsPosition_true; split
    end;
  cbn [Range._start Range._end] in *.

(** X6. A range contains a position exactly when the position is
    neither before its start nor after its end, and a range exactly when
    it contains its two ends; a range built by the constructor contains its
    own ends and itself; what a contained range contains is contained. *)
Theorem contains_between :
  forall a b p,
    (Range.contains a (inl p) = true <->
     Position.isBeforeOrEqual (Range.start a) p = true
     /\ Position.isBeforeOrEqual p (Range.end_ a) = true)
    /\ (Range.contains a (inr b) = true <->
        Range.contains a (inl (Range.start b)) = true
        /\ Range.contains a (inl (Range.end_ b)) = true)
    /\ (wellOrdered a ->
        Range.contains a (inl (Range.start a)) = true
        /\ Range.contains a (inl (Range.end_ a)) = true
        /\ Range.contains a (inr a) = true)
    /\ (Range.contains a (inr b) = true ->
        forall x : Position.t + Range.t,
          Range.contains b x = true -> Range.contains a x = true).
Proof.
  intros a b p.
  split; [apply containsPosition_true |].
  split; [apply containsRange_true |].
  split.
  - intros Ha. repeat split; contain; order.
  - intros Hab [q | r] Hx; contain; order.
Qed.

Lemma contains_between_witness :
  Range.contains (Range.mk (Position.mk 0 0 0) (Position.mk 1 9 0))
                 (inl (Position.mk 2 3 3)) = true.
Proof.
  destruct (contains_between (Range.mk (Position.mk 0 0 0) (Position.mk 1 9 0))
              (Range.mk (Position.mk 3 2 0) (Position.mk 4 5 0))
              (Position.mk 2 3 3)) as (_ & _ & _ & Htrans).
  apply (Htrans eq_refl (inl (Position.mk 2 3 3))). reflexivity.
Defined.

Lemma union_branches a b :
  (Range.union a b = Ok a /\ Range.contains a (inr b) = true)
  \/ (Range.union a b = Ok b /\ Range.contains b (inr a) = true)
  \/ Range.union a b
     = Ok (Range.ordered
             (if Position.isBefore (Range.start b) (Range._start a)
              then Range.start b else Range._start a)
             (if Position.isAfter (Range.end_ b) (Range.end_ a)
              then Range.end_ b else Range.end_ a)).
Proof.
  unfold Range.union.
  destruct (Range.contains a (inr b)) eqn:E1; [auto |].
  destruct (Range.contains b (inr a)) eqn:E2; [auto |].
  right; right. reflexivity.
Qed.

(** X7. The union of two ranges built by the constructor is a range in
    order that contains both, and every range that contains both contains
    it; it is the receiver itself when the receiver contains the
    argument. *)
Theorem union_is_least :
  forall a b,
    wellOrdered a -> wellOrdered b ->
    exists u,
      Range.union a b = Ok u
      /\ wellOrdered u
      /\ Range.contains u (inr a) = true
      /\ Range.contains u (inr b) = true
      /\ (forall w, Range.contains w (inr a) = true -> Range.contains w (inr b) = true ->
                    Range.contains w (inr u) = true)
      /\ (Range.contains a (inr b) = true -> u = a).
Proof.
  intros a b Ha Hb.
  destruct (union_branches a b) as [[E Hc] | [[E Hc] | E]].
  - exists a. split; [exact E |]. split; [exact Ha |].
    split; [contain; order |]. split; [exact Hc |]. split; [auto | auto].
  - exists b. split; [exact E |]. split; [exact Hb |].
    split; [exact Hc |]. split; [contain; order |]. split; [auto |].
    intros Hab. revert E. unfold Range.union. rewrite Hab. by intros [= ->].
  - eexists. split; [exact E |].
    assert (Hno : Range.contains a (inr b) = true ->
                  Range.ordered
                    (if Position.isBefore (Range.start b) (Range._start a)
                     then Range.start b else Range._start a)
                    (if Position.isAfter (Range.end_ b) (Range.end_ a)
                     then Range.end_ b else Range.end_ a) = a).
    { intros Hab. revert E. unfold Range.union. rewrite Hab.
      intros [= Heq]. symmetry. exact Heq. }
    split; [apply ordered_wellOrdered |].
    destruct a as [sa ea], b as [sb eb].
    unfold wellOrdered, Range.start, Range.end_, Range.ordered in *.
    cbn [Range._start Range._end] in *.
    destruct (Position.isBefore sb sa) eqn:E1, (Position.isAfter eb ea) eqn:E2;
      match goal with
      | |- context [if Position.isBefore ?x ?y then _ else _] =>
          destruct (Position.isBefore x y) eqn:E3
      end;
      (split; [contain; order |]); (split; [contain; order |]);
      (split; [intros [sw ew] Hwa Hwb; contain; order | exact Hno]).
Qed.

Lemma union_is_least_witness :
  exists u,
    Range.union (Range.mk (Position.mk 0 0 0) (Position.mk 1 0 5))
                (Range.mk (Position.mk 2 0 3) (Position.mk 3 1 0)) = Ok u
    /\ Range.contains u (inl (Position.mk 4 0 9)) = true.
Proof.
  destruct (union_is_least (Range.mk (Position.mk 0 0 0) (Position.mk 1 0 5))
              (Range.mk (Position.mk 2 0 3) (Position.mk 3 1 0)))
    as (u & E & _ & _ & Hb & _); [reflexivity | reflexivity |].
  exists u. split; [exact E |].
  contain; order.
Defined.

(** X8. The intersection of two ranges, when there is one, contains
    exactly the positions that both ranges contain; when there is none, no
    position is in both. *)
Theorem intersection_meets :
  forall a b p,
    match Range.intersection a b with
    | Ok (Some r) =>
        Range.contains r (inl p) = Range.contains a (inl p) && Range.contains b (inl p)
    | Ok None => Range.contains a (inl p) && Range.contains b (inl p) = false
    | Throw _ => False
    end.
Proof.
  intros [sa ea] [sb eb] p. rewrite intersection_pair.
  unfold Range.ordered, Range.start, Range.end_. cbv zeta.
  cbn [Range._start Range._end Range.contains].
  destruct (Position.isAfter sb sa) eqn:E1, (Position.isBefore eb ea) eqn:E2;
    match goal with
    | |- context [Position.isAfter ?x ?y] => destruct (Position.isAfter x y) eqn:E3
    end;
    try match goal with
      | |- context [if Position.isBefore ?x ?y then _ else _] =>
          destruct (Position.isBefore x y) eqn:E4
      end;
    try (apply eq_true_iff_eq; rewrite andb_true_iff, !containsPosition_true;
         cbn [Range._start Range._end]; split; intros; repeat split;
         repeat match goal with H : _ /\ _ |- _ => destruct H end; order);
    apply not_true_is_false; rewrite andb_true_iff, !containsPosition_true;
    cbn [Range._start Range._end]; intros [[] []]; order.
Qed.

End Containment.

(** ** The shapes of the arguments of the constructors *)

Section Constructors.
Local Open Scope Z_scope.

(** X9. Called on four numbers, the constructor of Range builds two new
    Positions and stores them in order when no number is negative, and
    throws an illegal-argument error when one is; called on arguments that
    are neither four numbers nor two Positions first, it throws 'Invalid
    arguments'. *)
Theorem Range_new_shapes :
  (forall (sl sc el ec : Z) (h : Alloc),
      0 <= sl -> 0 <= sc -> 0 <= el -> 0 <= ec ->
      Range.new (VNumber sl) (VNumber sc) (VNumber el) (VNumber ec) h
      = Ok (Range.ordered (Position.mk h sl sc) (Position.mk (S h) el ec), S (S h)))
  /\ (forall (sl sc el ec : Z) (h : Alloc),
         sl < 0 \/ sc < 0 \/ el < 0 \/ ec < 0 ->
         exists name,
           Range.new (VNumber sl) (VNumber sc) (VNumber el) (VNumber ec) h
           = Throw (IllegalArgument name))
  /\ (forall (a b c d : Value) (h : Alloc),
         (forall p q, (a, b) <> (VPosition p, VPosition q)) ->
         (forall sl sc el ec, (a, b, c, d) <> (VNumber sl, VNumber sc, VNumber el, VNumber ec)) ->
         Range.new a b c d h = Throw InvalidArguments).
Proof.
  split; [| split].
  - intros sl sc el ec h H1 H2 H3 H4. unfold Range.new, bind.
    rewrite new_nonneg by assumption. rewrite new_nonneg by assumption. reflexivity.
  - intros sl sc el ec h Hneg. unfold Range.new, bind, Position.new.
    destruct (Z.ltb_spec sl 0); [eauto |].
    destruct (Z.ltb_spec sc 0); [eauto |].
    destruct (Z.ltb_spec el 0); [eauto |].
    destruct (Z.ltb_spec ec 0); [eauto | lia].
  - intros a b c d h Hpos Hnum.
    destruct a as [| sl | p], b as [| sc | q]; try reflexivity.
    + destruct c as [| el | ?], d as [| ec | ?]; try reflexivity.
      exfalso. by apply (Hnum sl sc el ec).
    + exfalso. by apply (Hpos p q).
Qed.

Lemma Range_new_shapes_witness :
  Range.new (VNumber 1) (VNumber 2) VUndefined VUndefined 0%nat = Throw InvalidArguments
  /\ Range.new (VPosition (Position.mk 0 1 2)) (VNumber 3) VUndefined VUndefined 1%nat
     = Throw InvalidArguments
  /\ Range.new (VNumber 2) (VNumber 0) (VNumber 1) (VNumber 4) 0%nat
     = Ok (Range.mk (Position.mk 1 1 4) (Position.mk 0 2 0), 2%nat).
Proof.
  destruct Range_new_shapes as (Hnum & _ & Hshape).
  split; [| split].
  - apply Hshape; intros; discriminate.
  - apply Hshape; intros; discriminate.
  - apply (Hnum 2 0 1 4 0%nat); lia.
Defined.



End Constructors.

(** ** More on WorkspaceEdit *)

Section WorkspaceEditMore.
Import WorkspaceEdit.
Implicit Types (s : Store) (u : Uri.t) (a : aref) (k : string).

Lemma keys_binding s k : wf s -> k ∈ keys s <-> is_Some (binding s k).
Proof.
  intros Hwf. unfold keys, entries. rewrite list_elem_of_fmap. split.
  - intros ([u a] & -> & Hin). apply list_elem_of_lookup in Hin as [i Hi].
    pose proof (wf_values s Hwf i u a Hi) as Hk.
    exists a. apply binding_Some; [done |]. eauto.
  - intros [a Hb]. apply binding_Some in Hb as (i & u & Hi & Hv); [| done].
    destruct (wf_index s Hwf k i Hi) as (u' & a' & Hv' & Hu').
    exists (u', a'). split; [done |]. apply list_elem_of_lookup. eauto.
Qed.

Lemma replace_keys s u (range : Range.t) (newText : string) s' :
  wf s -> replace u range newText s = Ok (tt, s') ->
  keys s' = if decide (Uri.toString u ∈ keys s) then keys s
            else keys s ++ [Uri.toString u].
Proof.
  intros Hwf Hr.
  destruct (replace_spec s u range newText Hwf) as (s1 & Hr1 & _ & _ & _ & Hcase).
  rewrite Hr in Hr1. injection Hr1 as <-.
  destruct (binding s (Uri.toString u)) as [a |] eqn:Hb.
  - destruct Hcase as (elements & _ & _ & _ & Hent).
    rewrite decide_True; [| apply keys_binding; [done | by rewrite Hb]].
    unfold keys. by rewrite Hent.
  - destruct Hcase as (_ & _ & Hent).
    rewrite decide_False; [| rewrite keys_binding, Hb by done; by intros [? [=]]].
    unfold keys. rewrite Hent, map_app. reflexivity.
Qed.

Lemma call_keys (c : Call) s s' :
  wf s -> call c s = Ok (tt, s') ->
  keys s' = match key c with
            | Some k => if decide (k ∈ keys s) then keys s else keys s ++ [k]
            | None => keys s
            end.
Proof.
  intros Hwf. destruct c as [elements | u a | u range newText | u p newText | u range];
    simpl.
  - unfold bind, newArray, ret. by intros [= <-].
  - destruct (decide (a < length (arrays s))) as [Ha |]; [| discriminate].
    destruct (binding s (Uri.toString u)) as [a0 |] eqn:Hb.
    + destruct (set_present s u a a0 Hwf Ha Hb) as (s1 & -> & _ & _ & _ & Hkeys & _).
      intros [= <-]. rewrite decide_True; [done |].
      apply keys_binding; [done | by rewrite Hb].
    + destruct (set_absent s u a Hwf Ha Hb) as (s1 & -> & _ & _ & Hent & _).
      intros [= <-]. rewrite decide_False;
        [| rewrite keys_binding, Hb by done; by intros [? [=]]].
      unfold keys. rewrite Hent, map_app. reflexivity.
  - by apply replace_keys.
  - by apply replace_keys.
  - by apply replace_keys.
Qed.

Lemma run_keys (program : list Call) s s' :
  wf s -> run program s = Ok (tt, s') -> keys s' = firstTouches program (keys s).
Proof.
  revert s. induction program as [| c program IH]; intros s Hwf; simpl.
  - by intros [= <-].
  - unfold bind. destruct (call c s) as [[[] s1] |] eqn:Hc; [| discriminate].
    destruct (call_spec c s s1 Hwf Hc) as (Hwf1 & _).
    intros Hrun. rewrite (IH s1 Hwf1 Hrun), (call_keys c s s1 Hwf Hc).
    by destruct (key c).
Qed.

(** X11. The entries of a WorkspaceEdit that a program has built are in
    the order in which the program first stored under their keys: a later
    call for a key that is present, [set] included, does not move its
    entry. *)
Theorem entries_in_order_of_first_touch :
  forall (program : list Call) (s : Store),
    run program initial = Ok (tt, s) ->
    keys s = firstTouches program [].
Proof.
  intros program s Hrun. apply (run_keys program initial s wf_initial Hrun).
Qed.

Lemma entries_in_order_of_first_touch_witness :
  exists s,
    run [CallReplace otherUri someRange "x"; CallReplace someUri someRange "y";
         CallDelete otherUri someRange] initial = Ok (tt, s)
    /\ keys s = ["file:///b.ts"; "file:///a.ts"]%string.
Proof.
  eexists. split; [vm_compute; reflexivity |].
  rewrite (entries_in_order_of_first_touch
             [CallReplace otherUri someRange "x"; CallReplace someUri someRange "y";
              CallDelete otherUri someRange]); [| vm_compute; reflexivity].
  reflexivity.
Defined.

(** X12. On a WorkspaceEdit that a program has built no call throws:
    [get], [set], [replace], [insert] and [delete] find the entry that the
    index points to. *)
Theorem calls_do_not_throw :
  forall (program : list Call) (s : Store) (u : Uri.t),
    run program initial = Ok (tt, s) ->
    (exists r, get u s = Ok (r, s))
    /\ (forall a, a < length (arrays s) -> exists s', set u a s = Ok (tt, s'))
    /\ (forall (range : Range.t) (newText : string),
           exists s', replace u range newText s = Ok (tt, s'))
    /\ (forall (position : Position.t) (newText : string),
           exists s', insert u position newText s = Ok (tt, s'))
    /\ (forall range : Range.t, exists s', delete u range s = Ok (tt, s')).
Proof.
  intros program s u Hrun.
  destruct (reachable_wf program s Hrun) as [Hwf _].
  split; [rewrite (get_binding s u Hwf); eauto |].
  split.
  { intros a Ha. destruct (set_spec s u a Hwf Ha) as (s' & Hset & _). eauto. }
  split.
  { intros range newText.
    destruct (replace_spec s u range newText Hwf) as (s' & Hr & _). eauto. }
  split.
  { intros position newText. unfold insert.
    destruct (replace_spec s u (Range.ordered position position) newText Hwf)
      as (s' & Hr & _). eauto. }
  intros range. unfold delete.
  destruct (replace_spec s u range EmptyString Hwf) as (s' & Hr & _). eauto.
Qed.

Lemma calls_do_not_throw_witness :
  exists s',
    insert otherUri (Position.mk 3 1 1) "z"
      (mkStore [[TextEdit.mk someRange "x"]]
         (mk [(someUri, 0)] {[ "file:///a.ts" := 0 ]})) = Ok (tt, s').
Proof.
  destruct (calls_do_not_throw [CallReplace someUri someRange "x"]
              (mkStore [[TextEdit.mk someRange "x"]]
                 (mk [(someUri, 0)] {[ "file:///a.ts" := 0 ]})) otherUri)
    as (_ & _ & _ & Hinsert & _); [vm_compute; reflexivity |].
  apply Hinsert.
Defined.

(** X13. An array that was stored under two resources is one array:
    after [replace] for one of the two, [get] for the other returns the
    same array, which now ends with the new TextEdit. *)
Theorem shared_array_is_shared :
  forall (program : list Call) (s : Store) (u1 u2 : Uri.t) (a : aref)
         (range : Range.t) (newText : string),
    run program initial = Ok (tt, s) ->
    get u1 s = Ok (GArray a, s) -> get u2 s = Ok (GArray a, s) ->
    exists s' elements,
      replace u1 range newText s = Ok (tt, s')
      /\ arrays s !! a = Some elements
      /\ get u2 s' = Ok (GArray a, s')
      /\ arrays s' !! a = Some (elements ++ [TextEdit.mk range newText]).
Proof.
  intros program s u1 u2 a range newText Hrun H1 H2.
  destruct (reachable_wf program s Hrun) as [Hwf _].
  apply get_result in H1, H2; try done.
  destruct (binding s (Uri.toString u1)) as [a1 |] eqn:Hb1; [| discriminate].
  destruct (binding s (Uri.toString u2)) as [a2 |] eqn:Hb2; [| discriminate].
  injection H1 as <-. injection H2 as <-.
  destruct (replace_spec s u1 range newText Hwf)
    as (s' & Hr & Hwf' & _ & Hframe & Hcase).
  rewrite Hb1 in Hcase. destruct Hcase as (elements & He & Hb1' & He' & _).
  exists s', elements. split; [exact Hr |]. split; [exact He |].
  split; [| exact He'].
  apply get_result; [done |].
  destruct (decide (Uri.toString u2 = Uri.toString u1)) as [Heq | Hne].
  - by rewrite Heq, Hb1'.
  - by rewrite (Hframe _ Hne), Hb2.
Qed.

Lemma shared_array_is_shared_witness :
  let s := mkStore [[]]
             (mk [(someUri, 0); (otherUri, 0)]
                 {[ "file:///a.ts" := 0; "file:///b.ts" := 1 ]}) in
  exists s' elements,
    replace someUri someRange "x" s = Ok (tt, s')
    /\ arrays s !! 0 = Some elements
    /\ get otherUri s' = Ok (GArray 0, s')
    /\ arrays s' !! 0 = Some (elements ++ [TextEdit.mk someRange "x"]).
Proof.
  intros s.
  apply (shared_array_is_shared [CallArray []; CallSet someUri 0; CallSet otherUri 0]).
  - vm_compute. reflexivity.
  - vm_compute. reflexivity.
  - vm_compute. reflexivity.
Defined.

(** X14. [replace] changes one array, the one of its resource, or none
    when it creates one: every other array of the store keeps its
    contents; [set] changes the contents of no array. *)
Theorem other_arrays_are_kept :
  forall (program : list Call) (s s' : Store) (u : Uri.t)
         (range : Range.t) (newText : string) (a : aref),
    run program initial = Ok (tt, s) ->
    (replace u range newText s = Ok (tt, s') ->
     a < length (arrays s) -> get u s <> Ok (GArray a, s) ->
     arrays s' !! a = arrays s !! a)
    /\ (forall a', set u a' s = Ok (tt, s') -> arrays s' = arrays s).
Proof.
  intros program s s' u range newText a Hrun.
  destruct (reachable_wf program s Hrun) as [Hwf _]. split.
  - intros Hr Ha Hget.
    destruct (binding s (Uri.toString u)) as [b |] eqn:Hb.
    + destruct (replace_present s u range newText b Hwf Hb) as (elements & He & Hr').
      rewrite Hr in Hr'. injection Hr' as ->. simpl.
      apply list_lookup_insert_ne. intros ->. apply Hget.
      apply get_result; [done |]. by rewrite Hb.
    + rewrite (replace_absent s u range newText Hwf Hb) in Hr.
      revert Hr. unfold set. simpl.
      destruct (_index (this s) !! Uri.toString u) as [i |];
        [destruct (_values (this s) !! i); [| discriminate] |];
        intros [= <-]; simpl; by apply lookup_app_l.
  - intros a'. unfold set.
    destruct (_index (this s) !! Uri.toString u) as [i |];
      [destruct (_values (this s) !! i); [| discriminate] |];
      by intros [= <-].
Qed.

Lemma other_arrays_are_kept_witness :
  let s := mkStore [[]; [TextEdit.mk someRange "y"]]
             (mk [(someUri, 0); (otherUri, 1)]
                 {[ "file:///a.ts" := 0; "file:///b.ts" := 1 ]}) in
  exists s', replace someUri someRange "x" s = Ok (tt, s')
             /\ arrays s' !! 1 = Some [TextEdit.mk someRange "y"].
Proof.
  intros s.
  set (s' := match replace someUri someRange "x" s with
             | Ok (_, s') => s'
             | Throw _ => s
             end).
  assert (Hr : replace someUri someRange "x" s = Ok (tt, s'))
    by (vm_compute; reflexivity).
  exists s'. split; [exact Hr |].
  destruct (other_arrays_are_kept
              [CallArray []; CallSet someUri 0; CallReplace otherUri someRange "y"]
              s s' someUri someRange "x" 1) as [Hkeep _].
  - vm_compute. reflexivity.
  - rewrite Hkeep; [reflexivity | exact Hr | simpl; lia |].
    vm_compute. discriminate.
Defined.

(** X15. The entry of a key keeps the Uri object of the call that
    created it: [set] for a present key, called with another Uri object of
    the same key, changes the array of the entry and leaves its Uri and
    every other entry as they were. *)
Theorem entry_keeps_its_Uri :
  forall (program : list Call) (s : Store) (i : nat) (u0 u : Uri.t) (a0 a : aref),
    run program initial = Ok (tt, s) ->
    entries s !! i = Some (u0, a0) ->
    Uri.toString u = Uri.toString u0 ->
    a < length (arrays s) ->
    exists s',
      set u a s = Ok (tt, s')
      /\ entries s' !! i = Some (u0, a)
      /\ forall j, j <> i -> entries s' !! j = entries s !! j.
Proof.
  intros program s i u0 u a0 a Hrun Hi Hu Ha.
  destruct (reachable_wf program s Hrun) as [Hwf _].
  unfold entries in *.
  pose proof (wf_values s Hwf i u0 a0 Hi) as Hk. rewrite <- Hu in Hk.
  unfold set. rewrite Hk, Hi. eexists. split; [reflexivity |]. simpl.
  split.
  - apply list_lookup_insert_eq. by apply lookup_lt_Some in Hi.
  - intros j Hj. by apply list_lookup_insert_ne.
Qed.

Lemma entry_keeps_its_Uri_witness :
  let s := mkStore [[TextEdit.mk someRange "x"]; []]
             (mk [(someUri, 0)] {[ "file:///a.ts" := 0 ]}) in
  exists s',
    set (Uri.mk 9 "file:///a.ts") 1 s = Ok (tt, s')
    /\ entries s' !! 0 = Some (someUri, 1).
Proof.
  intros s.
  destruct (entry_keeps_its_Uri [CallReplace someUri someRange "x"; CallArray []]
              s 0 someUri (Uri.mk 9 "file:///a.ts") 0 1)
    as (s' & Hset & Hentry & _).
  - vm_compute. reflexivity.
  - reflexivity.
  - reflexivity.
  - simpl. lia.
  - exists s'. split; [exact Hset | exact Hentry].
Defined.

End WorkspaceEditMore.

(** ** More on the validation of positions and ranges *)

Section ValidateMore.
Local Open Scope Z_scope.

Lemma inBounds_true (this : AtomShim.AtomTextDocument) (p : Position.t) :
  inBounds this p = true <->
  exists l, item (linesOf this) (Position.line p) = Some l
            /\ 0 <= Position.character p <= strlen l.
Proof.
  unfold inBounds. rewrite lineCount_lines. split.
  - intros H. apply andb_true_iff in H as [_ H].
    destruct (item (linesOf this) (Position.line p)) as [l |]; [| discriminate].
    apply andb_true_iff in H as [H1 H2]. apply Z.leb_le in H1, H2. eauto.
  - intros (l & Hl & Hc). pose proof (item_range _ _ _ Hl) as Hr. rewrite Hl.
    repeat (apply andb_true_iff; split);
      first [apply Z.leb_le | apply Z.ltb_lt]; lia.
Qed.

(** The three cases of [clamp]. *)
Lemma clamp_cases (lines : list string) (l c l' c' : Z) (b : bool) :
  AtomShim.clamp lines l c = Ok (l', c', b) ->
  (l < 0 /\ l' = 0 /\ c' = 0)
  \/ (0 <= l /\ arrlen lines <= l /\ l' = arrlen lines - 1
      /\ exists s, item lines l' = Some s /\ c' = strlen s)
  \/ (0 <= l < arrlen lines /\ l' = l
      /\ exists s, item lines l = Some s /\ c' = Z.max 0 (Z.min c (strlen s))).
Proof.
  unfold AtomShim.clamp.
  destruct (Z.ltb_spec l 0); [intros [= <- <- <-]; auto |].
  destruct (Z.geb_spec l (arrlen lines)).
  - destruct (item lines (arrlen lines - 1)) as [s |] eqn:Hs; [| discriminate].
    intros [= <- <- <-]. right; left. eauto 8.
  - destruct (item lines l) as [s |] eqn:Hs; [| discriminate].
    pose proof (strlen_nonneg s).
    destruct (Z.ltb_spec c 0); [intros [= <- <- <-]; right; right |].
    { split; [lia |]. split; [reflexivity |]. exists s. split; [reflexivity | lia]. }
    destruct (Z.gtb_spec c (strlen s)); intros [= <- <- <-]; right; right;
      (split; [lia |]); (split; [reflexivity |]); exists s; (split; [reflexivity | lia]).
Qed.

(** Clamping keeps the order of the positions. *)
Lemma clamp_monotone (lines : list string) (l1 c1 l2 c2 : Z)
      (l1' c1' l2' c2' : Z) (b1 b2 : bool) :
  AtomShim.clamp lines l1 c1 = Ok (l1', c1', b1) ->
  AtomShim.clamp lines l2 c2 = Ok (l2', c2', b2) ->
  l1 < l2 \/ (l1 = l2 /\ c1 <= c2) ->
  l1' < l2' \/ (l1' = l2' /\ c1' <= c2').
Proof.
  intros H1 H2 Hle.
  destruct (clamp_cases _ _ _ _ _ _ H1)
    as [(A & -> & ->) | [(A & A' & -> & s1 & Hs1 & ->) | (A & -> & s1 & Hs1 & ->)]];
    destruct (clamp_cases _ _ _ _ _ _ H2)
      as [(B & -> & ->) | [(B & B' & -> & s2 & Hs2 & ->) | (B & -> & s2 & Hs2 & ->)]];
    try (pose proof (item_range _ _ _ Hs1)); try (pose proof (item_range _ _ _ Hs2));
    try (pose proof (strlen_nonneg s1)); try (pose proof (strlen_nonneg s2));
    try lia;
    match goal with
    | X : item lines ?x = Some s1, Y : item lines ?y = Some s2 |- _ =>
        destruct (Z.eq_dec x y) as [Heq | Hneq];
        [assert (s1 = s2) by congruence; subst; lia | lia]
    end.
Qed.

(** X16. [validatePosition] keeps the order of the positions: when p is
    before or equal to q, the position it returns for p is before or equal
    to the one it returns for q. *)
Theorem validatePosition_monotone :
  forall (this : AtomShim.AtomTextDocument) (p q p' q' : Position.t)
         (h h' k k' : Alloc),
    Position.isBeforeOrEqual p q = true ->
    AtomShim.validatePosition this (VPosition p) h = Ok (p', h') ->
    AtomShim.validatePosition this (VPosition q) k = Ok (q', k') ->
    Position.isBeforeOrEqual p' q' = true.
Proof.
  intros this p q p' q' h h' k k' Hle Hp Hq.
  destruct (validatePosition_run this p h)
    as (l1 & c1 & b1 & s1 & E1 & _ & _ & S1 & R1).
  destruct (validatePosition_run this q k)
    as (l2 & c2 & b2 & s2 & E2 & _ & _ & S2 & R2).
  rewrite Hp in R1. rewrite Hq in R2.
  assert (F1 : Position.line p' = l1 /\ Position.character p' = c1).
  { destruct b1; injection R1 as -> ->; [split; reflexivity |].
    destruct (S1 eq_refl) as [-> ->]. split; reflexivity. }
  assert (F2 : Position.line q' = l2 /\ Position.character q' = c2).
  { destruct b2; injection R2 as -> ->; [split; reflexivity |].
    destruct (S2 eq_refl) as [-> ->]. split; reflexivity. }
  apply isBeforeOrEqual_true. apply isBeforeOrEqual_true in Hle.
  destruct F1 as [F1 G1], F2 as [F2 G2].
  unfold Position.line, Position.character in *. rewrite F1, G1, F2, G2.
  exact (clamp_monotone _ _ _ _ _ _ _ _ _ _ _ E1 E2 Hle).
Qed.

Lemma validatePosition_monotone_witness :
  AtomShim.validatePosition abc_def (VPosition (Position.mk 0 0 9)) 2%nat
  = Ok (Position.mk 2 0 3, 3%nat)
  /\ AtomShim.validatePosition abc_def (VPosition (Position.mk 1 7 1)) 3%nat
     = Ok (Position.mk 3 1 3, 4%nat)
  /\ Position.isBeforeOrEqual (Position.mk 2 0 3) (Position.mk 3 1 3) = true.
Proof.
  assert (Hp : AtomShim.validatePosition abc_def (VPosition (Position.mk 0 0 9)) 2%nat
               = Ok (Position.mk 2 0 3, 3%nat)) by (vm_compute; reflexivity).
  assert (Hq : AtomShim.validatePosition abc_def (VPosition (Position.mk 1 7 1)) 3%nat
               = Ok (Position.mk 3 1 3, 4%nat)) by (vm_compute; reflexivity).
  split; [exact Hp |]. split; [exact Hq |].
  apply (validatePosition_monotone abc_def (Position.mk 0 0 9) (Position.mk 1 7 1)
           (Position.mk 2 0 3) (Position.mk 3 1 3) 2%nat 3%nat 3%nat 4%nat);
    [reflexivity | exact Hp | exact Hq].
Defined.

(** A range whose two ends lie in the document is returned as it is. *)
Lemma validateRange_in_bounds (this : AtomShim.AtomTextDocument) (r : Range.t) (x : Alloc) :
  inBounds this (Range.start r) = true -> inBounds this (Range.end_ r) = true ->
  AtomShim.validateRange this r x = Ok (r, x).
Proof.
  intros Hs He. apply inBounds_true in Hs as (ls & Hls & Hcs).
  apply inBounds_true in He as (le & Hle & Hce).
  unfold AtomShim.validateRange, bind.
  rewrite (validatePosition_in_bounds this _ x ls Hls Hcs).
  rewrite (validatePosition_in_bounds this _ x le Hle Hce).
  unfold Position.same. by rewrite !Nat.eqb_refl.
Qed.

(** X17. On a range whose two Positions were created before,
    [validateRange] never throws. Both ends of the range it returns lie in
    the document; the range is the given object itself, and nothing is
    created, when both ends of the given range lie in the document; for a
    given range in order, its start and its end are equal to what
    [validatePosition] returns for the given start and end; and validating
    the returned range again returns it. *)
Theorem validateRange_clamps :
  forall (this : AtomShim.AtomTextDocument) (range : Range.t) (h : Alloc),
    (Position.oid (Range.start range) < h)%nat ->
    (Position.oid (Range.end_ range) < h)%nat ->
    exists (r : Range.t) (h' : Alloc),
      AtomShim.validateRange this range h = Ok (r, h')
      /\ inBounds this (Range.start r) = true
      /\ inBounds this (Range.end_ r) = true
      /\ (inBounds this (Range.start range) = true ->
          inBounds this (Range.end_ range) = true -> r = range /\ h' = h)
      /\ (wellOrdered range ->
          wellOrdered r
          /\ forall s e k k',
              AtomShim.validatePosition this (VPosition (Range.start range)) h
              = Ok (s, k) ->
              AtomShim.validatePosition this (VPosition (Range.end_ range)) k
              = Ok (e, k') ->
              Position.isEqual (Range.start r) s = true
              /\ Position.isEqual (Range.end_ r) e = true)
      /\ AtomShim.validateRange this r h' = Ok (r, h').
Proof.
  intros this range h Hfresh1 Hfresh2.
  destruct (inBounds this (Range.start range) && inBounds this (Range.end_ range))
    eqn:Hin.
  - (* both ends lie in the document *)
    apply andb_true_iff in Hin as [Hs He].
    pose proof (validateRange_in_bounds this range h Hs He) as Hrun.
    exists range, h. split; [exact Hrun |]. split; [exact Hs |]. split; [exact He |].
    split; [auto |]. split; [| exact Hrun].
    intros Hord. split; [exact Hord |]. intros s e k k' Rs Re.
    apply inBounds_true in Hs as (ls & Hls & Hcs).
    apply inBounds_true in He as (le & Hle & Hce).
    rewrite (validatePosition_in_bounds this _ h ls Hls Hcs) in Rs.
    injection Rs as <- <-.
    rewrite (validatePosition_in_bounds this _ h le Hle Hce) in Re.
    injection Re as <- <-. split; apply isEqual_true; auto.
  - (* an end lies outside *)
    destruct (validatePosition_run this (Range.start range) h)
      as (l1 & c1 & b1 & s1 & E1 & I1 & C1 & S1 & R1).
    destruct (validatePosition_run this (Range.end_ range) (if b1 then S h else h))
      as (l2 & c2 & b2 & s2 & E2 & I2 & C2 & S2 & R2).
    pose proof (item_range _ _ _ I1) as G1. pose proof (item_range _ _ _ I2) as G2.
    set (k := if b1 then S h else h) in *.
    set (k' := if b2 then S k else k) in *.
    set (s := if b1 then Position.mk h l1 c1 else Range.start range) in *.
    set (e := if b2 then Position.mk k l2 c2 else Range.end_ range) in *.
    assert (Rs : AtomShim.validatePosition this (VPosition (Range.start range)) h
                 = Ok (s, k)) by (rewrite R1; subst s k; by destruct b1).
    assert (Re : AtomShim.validatePosition this (VPosition (Range.end_ range)) k
                 = Ok (e, k')) by (rewrite R2; subst e k'; by destruct b2).
    assert (Fs : Position.line s = l1 /\ Position.character s = c1).
    { subst s. destruct b1; [split; reflexivity |].
      destruct (S1 eq_refl) as [-> ->]. split; reflexivity. }
    assert (Fe : Position.line e = l2 /\ Position.character e = c2).
    { subst e. destruct b2; [split; reflexivity |].
      destruct (S2 eq_refl) as [-> ->]. split; reflexivity. }
    destruct Fs as [Fs1 Fs2], Fe as [Fe1 Fe2].
    assert (Hk : (h <= k)%nat) by (subst k; destruct b1; lia).
    assert (Hsame : Position.same s (Range.start range)
                    && Position.same e (Range.end_ range) = false).
    { apply andb_false_iff. apply andb_false_iff in Hin as [Hout | Hout].
      - left. assert (b1 = true) as Hb.
        { destruct b1; [reflexivity |]. exfalso.
          destruct (S1 eq_refl) as [Hl Hc].
          assert (inBounds this (Range.start range) = true); [| congruence].
          apply inBounds_true. exists s1. rewrite <- Hl, <- Hc. auto. }
        subst s. rewrite Hb. unfold Position.same. simpl. apply Nat.eqb_neq. lia.
      - right. assert (b2 = true) as Hb.
        { destruct b2; [reflexivity |]. exfalso.
          destruct (S2 eq_refl) as [Hl Hc].
          assert (inBounds this (Range.end_ range) = true); [| congruence].
          apply inBounds_true. exists s2. rewrite <- Hl, <- Hc. auto. }
        subst e. rewrite Hb. unfold Position.same. simpl. apply Nat.eqb_neq. lia. }
    set (P := Position.mk k' (Position.line s) (Position.character s)).
    set (Q := Position.mk (S k') (Position.line e) (Position.character e)).
    assert (Hrun : AtomShim.validateRange this range h
                   = Ok (Range.ordered P Q, S (S k'))).
    { unfold AtomShim.validateRange, bind. rewrite Rs, Re, Hsame.
      unfold Range.new, bind.
      rewrite new_nonneg by lia. rewrite new_nonneg by lia. reflexivity. }
    assert (BP : inBounds this P = true).
    { apply inBounds_true. exists s1. subst P. unfold Position.line, Position.character in *.
      simpl. rewrite Fs1, Fs2. auto. }
    assert (BQ : inBounds this Q = true).
    { apply inBounds_true. exists s2. subst Q. unfold Position.line, Position.character in *.
      simpl. rewrite Fe1, Fe2. auto. }
    assert (Bs : inBounds this (Range.start (Range.ordered P Q)) = true
                 /\ inBounds this (Range.end_ (Range.ordered P Q)) = true).
    { destruct (ordered_endpoints P Q) as [[-> ->] | [-> ->]]; auto. }
    destruct Bs as [Bs Be].
    exists (Range.ordered P Q), (S (S k')).
    split; [exact Hrun |]. split; [exact Bs |]. split; [exact Be |].
    split.
    { intros Hs He. rewrite Hs, He in Hin. discriminate. }
    split; [| by apply validateRange_in_bounds].
    intros Hord. split; [apply ordered_wellOrdered |].
    intros s' e' x x' Rs' Re'. rewrite Rs in Rs'. injection Rs' as <- <-.
    rewrite Re in Re'. injection Re' as <- <-.
    assert (Hle : Position.isBeforeOrEqual s e = true).
    { apply isBeforeOrEqual_true. unfold wellOrdered in Hord.
      apply isBeforeOrEqual_true in Hord.
      unfold Position.line, Position.character in *. rewrite Fs1, Fs2, Fe1, Fe2.
      exact (clamp_monotone _ _ _ _ _ _ _ _ _ _ _ E1 E2 Hord). }
    unfold Range.ordered, Range.start, Range.end_.
    destruct (Position.isBefore P Q) eqn:EPQ; cbn [Range._start Range._end];
      subst P Q; split; order.
Qed.

Lemma validateRange_clamps_witness :
  exists (r : Range.t) (h' : Alloc),
    AtomShim.validateRange abc_def
      (Range.mk (Position.mk 0 0 1) (Position.mk 1 4 0)) 2%nat = Ok (r, h')
    /\ inBounds abc_def (Range.end_ r) = true.
Proof.
  destruct (validateRange_clamps abc_def
              (Range.mk (Position.mk 0 0 1) (Position.mk 1 4 0)) 2%nat)
    as (r & h' & Hrun & _ & He & _); [simpl; lia | simpl; lia |].
  exists r, h'. split; [exact Hrun | exact He].
Defined.

End ValidateMore.

(** ** Lines *)

Section Lines.
Local Open Scope Z_scope.

(** The prefix that [leadingWhitespace] returns: it is made of
    whitespace, and the character after it, if there is one, is not. *)
Lemma leadingWhitespace_spec (text : string) :
  let n := String.length (AtomShim.leadingWhitespace text) in
  (n <= String.length text)%nat
  /\ (forall i, (i < n)%nat ->
                exists c, String.get i text = Some c /\ AtomShim.isWhitespace c = true)
  /\ ((n < String.length text)%nat ->
      exists c, String.get n text = Some c /\ AtomShim.isWhitespace c = false).
Proof.
  induction text as [| c text IH]; simpl.
  - split; [lia |]. split; intros; lia.
  - destruct (AtomShim.isWhitespace c) eqn:Ec; simpl.
    + destruct IH as (Hle & Hws & Hstop). split; [lia |]. split.
      * intros [| i] Hi; [eauto |]. apply Hws. lia.
      * intros Hlt. apply Hstop. lia.
    + split; [lia |]. split; [intros; lia |]. eauto.
Qed.

Lemma convertToRange_run (start end_ : TextBuffer.Point) (h : Alloc) :
  0 <= TextBuffer.row start -> 0 <= TextBuffer.column start ->
  0 <= TextBuffer.row end_ -> 0 <= TextBuffer.column end_ ->
  AtomShim.convertToRange (TextBuffer.mkRange start end_) h
  = Ok (Range.ordered
          (Position.mk h (TextBuffer.row start) (TextBuffer.column start))
          (Position.mk (S h) (TextBuffer.row end_) (TextBuffer.column end_)),
        S (S h)).
Proof.
  intros H1 H2 H3 H4. unfold AtomShim.convertToRange, AtomShim.convertToPosition, bind.
  simpl. rewrite new_nonneg by assumption. rewrite new_nonneg by assumption. reflexivity.
Qed.

(** The coordinates of the ends of a range made of two positions that are
    in order. *)
Lemma ordered_coordinates (p q : Position.t) :
  Position.isBeforeOrEqual p q = true ->
  Position.line (Range.start (Range.ordered p q)) = Position.line p
  /\ Position.character (Range.start (Range.ordered p q)) = Position.character p
  /\ Position.line (Range.end_ (Range.ordered p q)) = Position.line q
  /\ Position.character (Range.end_ (Range.ordered p q)) = Position.character q.
Proof.
  intros H. unfold Range.ordered.
  destruct (Position.isBefore p q) eqn:E; simpl; [tauto |].
  order.
Qed.

(** What [lineAt] computes for a row of the buffer. *)
Lemma lineAt_run (this : AtomShim.AtomTextDocument) (x : Position.t + Z) (h : Alloc) :
  let line := match x with inl p => Position.line p | inr n => n end in
  let b := Atom.getBuffer (AtomShim.editor this) in
  forall text,
    item (linesOf this) line = Some text ->
    AtomShim.lineAt this x h
    = Ok (AtomShim.mkTextLine line text
            (Range.ordered (Position.mk h line 0) (Position.mk (S h) line (strlen text)))
            (if line <? TextBuffer.getLastRow b
             then Range.ordered (Position.mk (S (S h)) line 0)
                                (Position.mk (S (S (S h))) (line + 1) 0)
             else Range.ordered (Position.mk (S (S h)) line 0)
                                (Position.mk (S (S (S h))) line (strlen text)))
            (strlen (AtomShim.leadingWhitespace text))
            (strlen (AtomShim.leadingWhitespace text) =? strlen text),
          S (S (S (S h)))).
Proof.
  intros line b text Htext.
  destruct (item_range _ _ _ Htext) as [Hlo Hhi].
  pose proof (strlen_nonneg text) as Hlen.
  pose proof (getLastRow_lines this) as Hlast.
  unfold linesOf in Htext, Hlast, Hhi. fold b in Htext, Hlast, Hhi.
  assert (Hclip : Z.min (Z.max line 0) (TextBuffer.getLastRow b) = line) by lia.
  assert (Hll : TextBuffer.lineLengthForRow b line = strlen text).
  { unfold TextBuffer.lineLengthForRow. by rewrite Htext. }
  unfold AtomShim.lineAt. fold line. fold b.
  unfold TextBuffer.lineForRow. rewrite Htext.
  unfold TextBuffer.rangeForRow. rewrite Hclip, Hll. cbn [andb].
  unfold bind at 1. rewrite convertToRange_run by (simpl; lia).
  cbn [TextBuffer.row TextBuffer.column].
  destruct (line <? TextBuffer.getLastRow b) eqn:Enext;
    unfold bind; rewrite convertToRange_run by (simpl; lia);
    reflexivity.
Qed.

(** X18. For a line number of the document, [lineAt] returns that number
    and the text of that line. [firstNonWhitespaceCharacterIndex] counts
    the whitespace at the start of the text: every character before that
    index is whitespace and the character at it, if there is one, is not;
    [isEmptyOrWhitespace] says that the index is the length of the text. A
    Position gives what its line number gives. *)
Theorem lineAt_text_and_whitespace :
  forall (this : AtomShim.AtomTextDocument) (line : Z) (h : Alloc),
    0 <= line < AtomShim.lineCount this ->
    exists (tl : AtomShim.TextLine) (h' : Alloc),
      AtomShim.lineAt this (inr line) h = Ok (tl, h')
      /\ AtomShim.lineNumber tl = line
      /\ item (linesOf this) line = Some (AtomShim.text tl)
      /\ 0 <= AtomShim.firstNonWhitespaceCharacterIndex tl <= strlen (AtomShim.text tl)
      /\ (forall i : nat,
             Z.of_nat i < AtomShim.firstNonWhitespaceCharacterIndex tl ->
             exists c, String.get i (AtomShim.text tl) = Some c
                       /\ AtomShim.isWhitespace c = true)
      /\ (AtomShim.firstNonWhitespaceCharacterIndex tl < strlen (AtomShim.text tl) ->
          exists c,
            String.get (Z.to_nat (AtomShim.firstNonWhitespaceCharacterIndex tl))
              (AtomShim.text tl) = Some c
            /\ AtomShim.isWhitespace c = false)
      /\ (AtomShim.isEmptyOrWhitespace tl = true <->
          AtomShim.firstNonWhitespaceCharacterIndex tl = strlen (AtomShim.text tl))
      /\ forall p : Position.t,
          Position.line p = line ->
          AtomShim.lineAt this (inl p) h = Ok (tl, h').
Proof.
  intros this line h Hline. rewrite lineCount_lines in Hline.
  destruct (item_Some (linesOf this) line Hline) as [text Htext].
  eexists; eexists. split; [exact (lineAt_run this (inr line) h text Htext) |].
  cbn [AtomShim.lineNumber AtomShim.text AtomShim.firstNonWhitespaceCharacterIndex
         AtomShim.isEmptyOrWhitespace].
  destruct (leadingWhitespace_spec text) as (Hle & Hws & Hstop).
  unfold strlen.
  split; [reflexivity |]. split; [exact Htext |]. split; [lia |].
  split; [intros i Hi; apply Hws; lia |].
  split; [intros Hlt; rewrite Nat2Z.id; apply Hstop; lia |].
  split; [apply Z.eqb_eq |].
  intros p Hp. subst line.
  exact (lineAt_run this (inl p) h text Htext).
Qed.

Lemma lineAt_text_and_whitespace_witness :
  exists (tl : AtomShim.TextLine) (h' : Alloc),
    AtomShim.lineAt abc_def (inr 1) 0%nat = Ok (tl, h')
    /\ AtomShim.lineNumber tl = 1
    /\ item (linesOf abc_def) 1 = Some (AtomShim.text tl)
    /\ 0 <= AtomShim.firstNonWhitespaceCharacterIndex tl <= strlen (AtomShim.text tl)
    /\ (forall i : nat,
           Z.of_nat i < AtomShim.firstNonWhitespaceCharacterIndex tl ->
           exists c, String.get i (AtomShim.text tl) = Some c
                     /\ AtomShim.isWhitespace c = true)
    /\ (AtomShim.firstNonWhitespaceCharacterIndex tl < strlen (AtomShim.text tl) ->
        exists c,
          String.get (Z.to_nat (AtomShim.firstNonWhitespaceCharacterIndex tl))
            (AtomShim.text tl) = Some c
          /\ AtomShim.isWhitespace c = false)
    /\ (AtomShim.isEmptyOrWhitespace tl = true <->
        AtomShim.firstNonWhitespaceCharacterIndex tl = strlen (AtomShim.text tl))
    /\ forall p : Position.t,
        Position.line p = 1 ->
        AtomShim.lineAt abc_def (inl p) 0%nat = Ok (tl, h').
Proof. apply (lineAt_text_and_whitespace abc_def 1 0%nat). vm_compute. split; [discriminate | reflexivity]. Defined.

(** X19. For a line number of the document, the [range] of the line that
    [lineAt] returns goes from the start of the line to the end of its
    text, and [rangeIncludingLineBreak] goes from the start of the line to
    the start of the next line, or, on the last line, to the end of the
    text. *)
Theorem lineAt_ranges :
  forall (this : AtomShim.AtomTextDocument) (line : Z) (h : Alloc),
    0 <= line < AtomShim.lineCount this ->
    exists (tl : AtomShim.TextLine) (h' : Alloc),
      AtomShim.lineAt this (inr line) h = Ok (tl, h')
      /\ Position.line (Range.start (AtomShim.range tl)) = line
      /\ Position.character (Range.start (AtomShim.range tl)) = 0
      /\ Position.line (Range.end_ (AtomShim.range tl)) = line
      /\ Position.character (Range.end_ (AtomShim.range tl)) = strlen (AtomShim.text tl)
      /\ Position.line (Range.start (AtomShim.rangeIncludingLineBreak tl)) = line
      /\ Position.character (Range.start (AtomShim.rangeIncludingLineBreak tl)) = 0
      /\ (line + 1 < AtomShim.lineCount this ->
          Position.line (Range.end_ (AtomShim.rangeIncludingLineBreak tl)) = line + 1
          /\ Position.character (Range.end_ (AtomShim.rangeIncludingLineBreak tl)) = 0)
      /\ (line + 1 = AtomShim.lineCount this ->
          Position.line (Range.end_ (AtomShim.rangeIncludingLineBreak tl)) = line
          /\ Position.character (Range.end_ (AtomShim.rangeIncludingLineBreak tl))
             = strlen (AtomShim.text tl)).
Proof.
  intros this line h Hline. rewrite lineCount_lines in *.
  destruct (item_Some (linesOf this) line Hline) as [text Htext].
  pose proof (strlen_nonneg text) as Hlen.
  pose proof (getLastRow_lines this) as Hlast.
  eexists; eexists. split; [exact (lineAt_run this (inr line) h text Htext) |].
  cbn [AtomShim.text AtomShim.range AtomShim.rangeIncludingLineBreak].
  destruct (ordered_coordinates (Position.mk h line 0)
              (Position.mk (S h) line (strlen text))) as (-> & -> & -> & ->);
    [apply isBeforeOrEqual_true; simpl; lia |].
  cbn [Position.line Position.character Position._line Position._character].
  do 4 (split; [reflexivity |]).
  destruct (line <? TextBuffer.getLastRow (Atom.getBuffer (AtomShim.editor this))) eqn:E.
  - apply Z.ltb_lt in E.
    destruct (ordered_coordinates (Position.mk (S (S h)) line 0)
                (Position.mk (S (S (S h))) (line + 1) 0)) as (-> & -> & -> & ->);
      [apply isBeforeOrEqual_true; simpl; lia |].
    cbn [Position.line Position.character Position._line Position._character].
    repeat split; lia.
  - apply Z.ltb_ge in E.
    destruct (ordered_coordinates (Position.mk (S (S h)) line 0)
                (Position.mk (S (S (S h))) line (strlen text))) as (-> & -> & -> & ->);
      [apply isBeforeOrEqual_true; simpl; lia |].
    cbn [Position.line Position.character Position._line Position._character].
    repeat split; lia.
Qed.

Lemma lineAt_ranges_witness :
  exists (tl : AtomShim.TextLine) (h' : Alloc),
    AtomShim.lineAt abc_def (inr 0) 0%nat = Ok (tl, h')
    /\ Position.line (Range.start (AtomShim.range tl)) = 0
    /\ Position.character (Range.start (AtomShim.range tl)) = 0
    /\ Position.line (Range.end_ (AtomShim.range tl)) = 0
    /\ Position.character (Range.end_ (AtomShim.range tl)) = strlen (AtomShim.text tl)
    /\ Position.line (Range.start (AtomShim.rangeIncludingLineBreak tl)) = 0
    /\ Position.character (Range.start (AtomShim.rangeIncludingLineBreak tl)) = 0
    /\ (0 + 1 < AtomShim.lineCount abc_def ->
        Position.line (Range.end_ (AtomShim.rangeIncludingLineBreak tl)) = 0 + 1
        /\ Position.character (Range.end_ (AtomShim.rangeIncludingLineBreak tl)) = 0)
    /\ (0 + 1 = AtomShim.lineCount abc_def ->
        Position.line (Range.end_ (AtomShim.rangeIncludingLineBreak tl)) = 0
        /\ Position.character (Range.end_ (AtomShim.rangeIncludingLineBreak tl))
           = strlen (AtomShim.text tl)).
Proof. apply (lineAt_ranges abc_def 0 0%nat). vm_compute. split; [discriminate | reflexivity]. Defined.

(** X20. For a number that is not a line number of the document, [lineAt]
    returns no line: the host has no text for that row, and reading the
    length of the text throws. *)
Theorem lineAt_outside_throws :
  forall (this : AtomShim.AtomTextDocument) (line : Z) (h : Alloc),
    line < 0 \/ AtomShim.lineCount this <= line ->
    AtomShim.lineAt this (inr line) h = Throw TypeError.
Proof.
  intros this line h Hline. rewrite lineCount_lines in Hline.
  pose proof (getLastRow_lines this) as Hlast.
  pose proof (lines_nonempty this) as Hne.
  assert (Hnone : item (linesOf this) line = None).
  { unfold item. destruct (line <? 0) eqn:E; [reflexivity |].
    apply Z.ltb_ge in E. apply lookup_ge_None_2. unfold arrlen in Hline. lia. }
  unfold linesOf in *.
  set (b := Atom.getBuffer (AtomShim.editor this)) in *.
  set (row := Z.min (Z.max line 0) (TextBuffer.getLastRow b)).
  assert (Hrow : 0 <= row) by (unfold row; lia).
  assert (Hll : 0 <= TextBuffer.lineLengthForRow b row).
  { unfold TextBuffer.lineLengthForRow.
    destruct (item (TextBuffer.getLines b) row); [apply strlen_nonneg | lia]. }
  unfold AtomShim.lineAt. fold b.
  unfold TextBuffer.lineForRow. rewrite Hnone.
  unfold TextBuffer.rangeForRow. fold row. cbn [andb].
  unfold bind at 1. rewrite convertToRange_run by (simpl; lia).
  destruct (row <? TextBuffer.getLastRow b) eqn:Enext;
    unfold bind; rewrite convertToRange_run by (simpl; lia);
    reflexivity.
Qed.

Lemma lineAt_outside_throws_witness :
  AtomShim.lineAt abc_def (inr 2) 0%nat = Throw TypeError.
Proof. apply (lineAt_outside_throws abc_def 2 0%nat). right. vm_compute. discriminate. Defined.

End Lines.

(** ** The count of the changes *)

Section Versions.
Local Open Scope Z_scope.
Import AtomShim.

Lemma notifyAll_cons (e : Atom.Event) (events : list Atom.Event) (a : Adapter) :
  notifyAll (e :: events) a = notifyAll events (notify e a).
Proof. reflexivity. Qed.

Lemma notifyAll_not_listening (events : list Atom.Event) (a : Adapter) :
  listening a = false ->
  version (document (notifyAll events a)) = version (document a).
Proof.
  revert a. induction events as [| e events IH]; intros a Ha; [reflexivity |].
  rewrite notifyAll_cons. destruct a as [d l]. simpl in Ha. subst l.
  destruct e; rewrite IH; reflexivity.
Qed.

Lemma notifyAll_counts (events : list Atom.Event) (a : Adapter) :
  listening a = true ->
  version (document (notifyAll events a))
  = version (document a) + changesBeforeDestroy events.
Proof.
  revert a. induction events as [| e events IH]; intros a Ha; [simpl; lia |].
  rewrite notifyAll_cons. destruct a as [d l]. simpl in Ha. subst l.
  destruct e.
  - rewrite IH by reflexivity. simpl. lia.
  - rewrite IH by reflexivity. simpl. lia.
  - rewrite notifyAll_not_listening by reflexivity. simpl. lia.
Qed.

(** X21. The version of a document is one more than the number of the
    changes that the host has reported before it reported the destruction
    of the editor: a save does not count, and after the destruction a
    change is not counted any more. *)
Theorem version_counts_changes :
  forall (editor : Atom.TextEditor) (events : list Atom.Event),
    version (document (notifyAll events (new editor)))
    = 1 + changesBeforeDestroy events
    /\ forall (later : list Atom.Event),
        version (document (notifyAll (events ++ Atom.DidDestroy :: later) (new editor)))
        = version (document (notifyAll events (new editor))).
Proof.
  intros editor events.
  assert (Hcount : forall evs,
             version (document (notifyAll evs (new editor)))
             = 1 + changesBeforeDestroy evs).
  { intros evs. by rewrite notifyAll_counts. }
  split; [apply Hcount |]. intros later. rewrite !Hcount. f_equal.
  induction events as [| e events IH]; [reflexivity |].
  destruct e; simpl; rewrite ?IH; reflexivity.
Qed.

End Versions.

(** ** The conversions between the host and the shim *)

Section Conversions.
Local Open Scope Z_scope.

(** X22. A range of the host whose points are not negative and in order
    comes back from [convertToRange] and [convertFromRange] as it was; when
    its points are not in order it comes back with its points exchanged. A
    range of the shim goes through [convertFromRange] and [convertToRange]
    to a range that is equal to it. *)
Theorem range_conversions_round_trip :
  (forall (r : TextBuffer.Range) (h : Alloc),
      0 <= TextBuffer.row (TextBuffer.start r) ->
      0 <= TextBuffer.column (TextBuffer.start r) ->
      0 <= TextBuffer.row (TextBuffer.end_ r) ->
      0 <= TextBuffer.column (TextBuffer.end_ r) ->
      exists r' h',
        AtomShim.convertToRange r h = Ok (r', h')
        /\ AtomShim.convertFromRange r'
           = if Position.isBeforeOrEqual
                  (Position.mk 0 (TextBuffer.row (TextBuffer.start r))
                                 (TextBuffer.column (TextBuffer.start r)))
                  (Position.mk 0 (TextBuffer.row (TextBuffer.end_ r))
                                 (TextBuffer.column (TextBuffer.end_ r)))
             then r
             else TextBuffer.mkRange (TextBuffer.end_ r) (TextBuffer.start r))
  /\ (forall (r : Range.t) (h : Alloc),
         valid (Range.start r) -> valid (Range.end_ r) -> wellOrdered r ->
         exists r' h',
           AtomShim.convertToRange (AtomShim.convertFromRange r) h = Ok (r', h')
           /\ Range.isEqual r' r = true).
Proof.
  split.
  - intros [[r1 c1] [r2 c2]] h H1 H2 H3 H4. simpl in *.
    eexists; eexists. split; [apply convertToRange_run; simpl; assumption |].
    unfold AtomShim.convertFromRange, AtomShim.convertFromPosition, Range.ordered.
    cbn [TextBuffer.row TextBuffer.column].
    destruct (Position.isBefore (Position.mk h r1 c1) (Position.mk (S h) r2 c2)) eqn:E;
      destruct (Position.isBeforeOrEqual (Position.mk 0 r1 c1) (Position.mk 0 r2 c2)) eqn:E';
      cbn [Range.start Range.end_ Range._start Range._end Position.line Position.character
             Position._line Position._character];
      try reflexivity.
    + exfalso. order.
    + assert (r1 = r2 /\ c1 = c2) as [-> ->] by order. reflexivity.
  - intros [[o1 l1 c1] [o2 l2 c2]] h [Hl1 Hc1] [Hl2 Hc2] Hord.
    unfold wellOrdered in Hord. simpl in *.
    eexists; eexists. split.
    + unfold AtomShim.convertFromRange. apply convertToRange_run; simpl; assumption.
    + unfold Range.isEqual, Range.ordered, AtomShim.convertFromPosition.
      cbn [Range.start Range.end_ Range._start Range._end Position.line Position.character
             Position._line Position._character TextBuffer.row TextBuffer.column].
      destruct (Position.isBefore (Position.mk h l1 c1) (Position.mk (S h) l2 c2)) eqn:E;
        cbn [Range._start Range._end]; apply andb_true_iff; split; order.
Qed.

Lemma range_conversions_round_trip_witness :
  exists r' h',
    AtomShim.convertToRange
      (TextBuffer.mkRange (TextBuffer.mkPoint 2 0) (TextBuffer.mkPoint 1 3)) 0%nat
    = Ok (r', h')
    /\ AtomShim.convertFromRange r'
       = TextBuffer.mkRange (TextBuffer.mkPoint 1 3) (TextBuffer.mkPoint 2 0).
Proof.
  destruct range_conversions_round_trip as [Hhost _].
  apply (Hhost (TextBuffer.mkRange (TextBuffer.mkPoint 2 0) (TextBuffer.mkPoint 1 3)) 0%nat);
    simpl; lia.
Defined.

End Conversions.

(** ** Disposable *)

Section Disposables.
Import Disposable.

(** X23. The function of a Disposable is called by the first [dispose]
    and never again: a second [dispose] makes no call and leaves the object
    as the first one left it, whatever the object was built from. *)
Theorem dispose_calls_once :
  forall (this : Disposable.t),
    let once := dispose this in
    dispose (fst once) = (fst once, [])
    /\ (forall id, _callOnDispose this = CallerFunction id -> snd once = [CallFunction id])
    /\ (_callOnDispose this = NotAFunction -> once = (this, [])).
Proof.
  intros [[| id | ds]]; simpl; repeat split; try discriminate.
  intros id' [= ->]. reflexivity.
Qed.

(** X24. The Disposable that [from] builds disposes, on its first
    [dispose], of each of the arguments that has a function [dispose], once
    and in the order of the arguments; it passes over the arguments that
    are [null] or have no such function; a second [dispose] disposes of
    nothing. *)
Theorem from_disposes_each :
  forall (disposables : list Argument),
    snd (dispose (from disposables)) = map CallDispose (disposed disposables)
    /\ snd (dispose (fst (dispose (from disposables)))) = []
    /\ (forall id, CallDispose id ∈ snd (dispose (from disposables))
                   <-> WithDispose id ∈ disposables)
    /\ (forall id, CallFunction id ∉ snd (dispose (from disposables))).
Proof.
  intros ds.
  assert (Hcalls : snd (dispose (from ds)) = map CallDispose (disposed ds)).
  { simpl. induction ds as [| [| id | id] ds IH]; simpl; congruence. }
  split; [exact Hcalls |]. split; [reflexivity |]. rewrite Hcalls. split.
  - intros id. unfold disposed. rewrite list_elem_of_fmap. split.
    + intros (x & [= <-] & Hx). apply list_elem_of_omap in Hx as (d & Hd & Hsome).
      destruct d; try discriminate. injection Hsome as ->. exact Hd.
    + intros Hin. exists id. split; [reflexivity |].
      apply list_elem_of_omap. exists (WithDispose id). split; [exact Hin | reflexivity].
  - intros id Hin. apply list_elem_of_fmap in Hin as (x & Hx & _). discriminate.
Qed.

End Disposables.

(** ** TextEdit *)

Section Edits.
Local Open Scope Z_scope.

(** X25. [TextEdit.insert] builds an edit with the given text whose range
    is empty and starts and ends at the given Position object;
    [TextEdit.delete] builds an edit of the given range with no text;
    [TextEdit.replace] keeps the range and the text. None of them throws.
    The text that [newText] reads is the text that was stored. *)
Theorem TextEdit_factories :
  forall (position : Position.t) (range : Range.t) (newText : string),
    (exists e, TextEdit.insert position newText = Ok e
               /\ Range.start (TextEdit.range e) = position
               /\ Range.end_ (TextEdit.range e) = position
               /\ Range.isEmpty (TextEdit.range e) = true
               /\ Range.isSingleLine (TextEdit.range e) = true
               /\ TextEdit.newText e = newText)
    /\ (exists e, TextEdit.delete range = Ok e
                  /\ TextEdit.range e = range
                  /\ TextEdit.newText e = EmptyString)
    /\ (exists e, TextEdit.replace range newText = Ok e
                  /\ TextEdit.range e = range
                  /\ TextEdit.newText e = newText).
Proof.
  intros position range newText.
  assert (Htext : forall r s, TextEdit.newText (TextEdit.mk r s) = s).
  { intros r s. unfold TextEdit.newText. simpl.
    destruct (String.eqb_spec s EmptyString); congruence. }
  split; [| split].
  - eexists. split; [reflexivity |]. rewrite Htext.
    unfold TextEdit.range, Range.ordered. simpl.
    assert (E : Position.isBefore position position = false) by order.
    rewrite E. cbn [TextEdit._range Range.start Range.end_ Range._start Range._end].
    split; [reflexivity |]. split; [reflexivity |].
    split; [unfold Range.isEmpty; cbn [Range._start Range._end]; order |].
    split; [apply Z.eqb_refl | reflexivity].
  - eexists. split; [reflexivity |]. by rewrite Htext.
  - eexists. split; [reflexivity |]. by rewrite Htext.
Qed.

End Edits.

(** ** Equal ranges, and ranges with another end *)

Section RangesMore.
Local Open Scope Z_scope.

(** X26. Two ranges in order are equal exactly when each contains the
    other; a range in order contains itself, and an empty range lies on a
    single line. *)
Theorem isEqual_is_mutual_containment :
  forall (a b : Range.t),
    wellOrdered a -> wellOrdered b ->
    Range.isEqual a b = Range.contains a (inr b) && Range.contains b (inr a)
    /\ Range.contains a (inr a) = true
    /\ (Range.isEmpty a = true -> Range.isSingleLine a = true).
Proof.
  intros [[o1 l1 c1] [o2 l2 c2]] [[o3 l3 c3] [o4 l4 c4]] Ha Hb.
  unfold wellOrdered in *. simpl in Ha, Hb.
  split; [| split].
  - unfold Range.isEqual, Range.contains, Range.containsPosition.
    cbn [Range._start Range._end].
    destruct (Position.isEqual (Position.mk o1 l1 c1) (Position.mk o3 l3 c3)) eqn:E1;
      [destruct (Position.isEqual (Position.mk o2 l2 c2) (Position.mk o4 l4 c4)) eqn:E2 |];
      cbn [andb].
    + symmetry. apply andb_true_iff.
      split; apply andb_true_iff; split;
        repeat match goal with
               | |- (if ?c then _ else _) = true => destruct c eqn:?; [exfalso |]
               end; try reflexivity; order.
    + symmetry. apply andb_false_iff.
      destruct (Position.isBefore (Position.mk o4 l4 c4) (Position.mk o2 l2 c2)) eqn:E3.
      * right. apply andb_false_iff. right.
        destruct (Position.isBefore (Position.mk o2 l2 c2) (Position.mk o3 l3 c3));
          [reflexivity |]. reflexivity.
      * left. apply andb_false_iff. right.
        destruct (Position.isBefore (Position.mk o4 l4 c4) (Position.mk o1 l1 c1));
          [reflexivity |].
        assert (E4 : Position.isBefore (Position.mk o2 l2 c2) (Position.mk o4 l4 c4) = true)
          by order.
        by rewrite E4.
    + symmetry. apply andb_false_iff.
      destruct (Position.isBefore (Position.mk o3 l3 c3) (Position.mk o1 l1 c1)) eqn:E3.
      * left. apply andb_false_iff. left. reflexivity.
      * right. apply andb_false_iff. left.
        assert (E4 : Position.isBefore (Position.mk o1 l1 c1) (Position.mk o3 l3 c3) = true)
          by order.
        by rewrite E4.
  - unfold Range.contains, Range.containsPosition. cbn [Range._start Range._end].
    apply andb_true_iff; split;
      repeat match goal with
             | |- (if ?c then _ else _) = true => destruct c eqn:?; [exfalso |]
             end; try reflexivity; order.
  - unfold Range.isEmpty, Range.isSingleLine. simpl. intros He.
    apply Z.eqb_eq. order.
Qed.

Lemma isEqual_is_mutual_containment_witness :
  Range.isEqual someRange someRange
  = Range.contains someRange (inr someRange) && Range.contains someRange (inr someRange)
  /\ Range.contains someRange (inr someRange) = true
  /\ (Range.isEmpty someRange = true -> Range.isSingleLine someRange = true).
Proof. apply (isEqual_is_mutual_containment someRange someRange); reflexivity. Defined.

(** X27. [with] on a range in order returns the range itself when the
    two ends it is given are equal to its own or absent. The range it
    returns is in order. When the start it is given is not after the end
    it is given, the returned start and end are equal to them; when it is
    after, the two Position objects are stored exchanged. *)
Theorem Range_with_is_normalized :
  forall (this : Range.t) (start' end' : option Position.t),
    wellOrdered this ->
    let s := default (Range.start this) start' in
    let e := default (Range.end_ this) end' in
    let r := Range.with_ this start' end' in
    wellOrdered r
    /\ (Position.isEqual s (Range.start this) = true ->
        Position.isEqual e (Range.end_ this) = true -> r = this)
    /\ (Position.isBeforeOrEqual s e = true ->
        Position.isEqual (Range.start r) s = true
        /\ Position.isEqual (Range.end_ r) e = true)
    /\ (Position.isBefore e s = true ->
        Range.start r = e /\ Range.end_ r = s).
Proof.
  intros this start' end' Hthis s e r. unfold wellOrdered in Hthis.
  unfold r, Range.with_. fold s. fold e.
  change (Range._start this) with (Range.start this) in *.
  change (Range._end this) with (Range.end_ this) in *.
  destruct (Position.isEqual s (Range.start this)) eqn:Es;
    [destruct (Position.isEqual e (Range.end_ this)) eqn:Ee |]; cbn [andb].
  - split; [exact Hthis |]. split; [reflexivity |]. split.
    + intros _. split; order.
    + intros Hrev. exfalso. order.
  - split; [apply ordered_wellOrdered |]. split; [discriminate |].
    unfold Range.ordered. destruct (Position.isBefore s e) eqn:E; simpl; split.
    + intros _. split; order.
    + intros Hrev. exfalso. order.
    + intros Hle. split; order.
    + intros _. split; reflexivity.
  - split; [apply ordered_wellOrdered |]. split; [discriminate |].
    unfold Range.ordered. destruct (Position.isBefore s e) eqn:E; simpl; split.
    + intros _. split; order.
    + intros Hrev. exfalso. order.
    + intros Hle. split; order.
    + intros _. split; reflexivity.
Qed.

Lemma Range_with_is_normalized_witness :
  wellOrdered (Range.with_ someRange (Some (Position.mk 7 3 0)) None)
  /\ Range.start (Range.with_ someRange (Some (Position.mk 7 3 0)) None)
     = Range.end_ someRange
  /\ Range.end_ (Range.with_ someRange (Some (Position.mk 7 3 0)) None)
     = Position.mk 7 3 0.
Proof.
  destruct (Range_with_is_normalized someRange (Some (Position.mk 7 3 0)) None)
    as (Hord & _ & _ & Hswap); [reflexivity |].
  split; [exact Hord |]. apply Hswap. reflexivity.
Defined.

(** X28. [with] on a position with no negative coordinate returns the
    position itself when the coordinates it is given are its own or
    absent; otherwise it returns a new position with these coordinates, an
    absent one being taken from the receiver, and it throws exactly when
    one it is given is negative. *)
Theorem Position_with_replaces :
  forall (this : Position.t) (line' character' : option Z) (h : Alloc),
    valid this ->
    let l := default (Position.line this) line' in
    let c := default (Position.character this) character' in
    (l = Position.line this -> c = Position.character this ->
     Position.with_ this line' character' h = Ok (this, h))
    /\ (0 <= l -> 0 <= c ->
        exists q h',
          Position.with_ this line' character' h = Ok (q, h')
          /\ Position.line q = l /\ Position.character q = c
          /\ (q = this \/ (Position.oid q = h /\ h' = S h)))
    /\ (l < 0 \/ c < 0 ->
        exists e, Position.with_ this line' character' h = Throw e).
Proof.
  intros this line' character' h [Hl Hc] l c.
  unfold Position.with_. fold l. fold c.
  split; [| split].
  - intros -> ->. by rewrite !Z.eqb_refl.
  - intros Hl' Hc'.
    destruct (Z.eqb_spec l (Position.line this)) as [El |];
      destruct (Z.eqb_spec c (Position.character this)) as [Ec |]; cbn [andb];
      try (rewrite new_nonneg by assumption; eexists; eexists;
           split; [reflexivity |]; simpl; auto).
    exists this, h. split; [reflexivity |]. auto.
  - intros Hneg.
    assert (E : (l =? Position.line this) && (c =? Position.character this) = false).
    { apply andb_false_iff. rewrite !Z.eqb_neq. lia. }
    rewrite E. unfold Position.new.
    destruct (Z.ltb_spec l 0); [eauto |].
    destruct (Z.ltb_spec c 0); [eauto | lia].
Qed.

Lemma Position_with_replaces_witness :
  exists q h',
    Position.with_ (Position.mk 0 3 4) None (Some 9) 1%nat = Ok (q, h')
    /\ Position.line q = 3 /\ Position.character q = 9.
Proof.
  destruct (Position_with_replaces (Position.mk 0 3 4) None (Some 9) 1%nat)
    as (_ & Hnew & _).
  - split; simpl; lia.
  - destruct Hnew as (q & h' & Hrun & Hl & Hc & _); [simpl; lia | simpl; lia |].
    exists q, h'. split; [exact Hrun |]. split; [exact Hl | exact Hc].
Defined.

End RangesMore.
